(** * The agentic tool-call loop of [run_AI_analysis.py]

    A shallow embedding of the script: the two HTTP collaborators (the chat
    completions endpoint and the tool registry / tool call endpoint) are
    oracles that answer the n-th call made to them; the script itself is a
    program in a state-and-exception monad whose state holds the [messages]
    list, what was printed, and the log of every request sent out. *)

From Stdlib Require Import String List Arith Lia Bool ZArith.
Import ListNotations.
Open Scope string_scope.
Open Scope list_scope.

Set Implicit Arguments.
Set Warnings "-register-all".

(** ** Python values that cross the HTTP boundary *)

(** What [response.json()] returns: a decoded JSON document.  A dict is kept
    as its key/value pairs in document order. *)
Inductive Json : Type :=
| JNull
| JBool (b : bool)
| JInt (z : Z)
| JStr (s : string)
| JArr (items : list Json)
| JObj (pairs : list (string * Json)).

Inductive PyExc : Type :=
| RequestException        (* requests: connection refused, timeout, ... *)
| JSONDecodeError         (* [.json()] on a body that is not JSON *)
| APIError                (* openai: connection or status error *)
| KeyError (key : string)
| TypeError
| IndexError.

Inductive Result (A : Type) : Type :=
| Return (a : A)
| Raise (e : PyExc).
Arguments Return {A} a.
Arguments Raise {A} e.

(** [d[key]] building the dict as [json.loads] does: a later pair for the
    same key replaces an earlier one. *)
Fixpoint dict_get (pairs : list (string * Json)) (key : string) : option Json :=
  match pairs with
  | [] => None
  | (k, v) :: rest =>
      match dict_get rest key with
      | Some v' => Some v'
      | None => if String.eqb k key then Some v else None
      end
  end.

(** [value[key]] with a [str] key. *)
Definition subscript (value : Json) (key : string) : Result Json :=
  match value with
  | JObj pairs =>
      match dict_get pairs key with
      | Some v => Return v
      | None => Raise (KeyError key)
      end
  | _ => Raise TypeError
  end.

(** ** The objects of the chat client *)

Record Function : Type := { fn_name : string; fn_arguments : string }.

Record ToolCall : Type := { call_id : string; call_function : Function }.

Record ChatCompletionMessage : Type :=
  { content : option string;
    tool_calls : option (list ToolCall) }.

Record Choice : Type := { message : ChatCompletionMessage }.

Record ChatCompletion : Type := { choices : list Choice }.

(** An element of [messages]: a dict literal of the script, or the message
    object handed back by the chat client. *)
Inductive Message : Type :=
| Dict (d : Json)
| Obj (m : ChatCompletionMessage).

(** ** Requests that leave the process *)

Inductive Event : Type :=
| Get (url : string)
| ChatCreate (model : string) (tools : Json) (msgs : list Message)
| Post (url : string) (json : Json).

(** ** The collaborators *)

Record World : Type :=
  { get_json : Result Json;                   (* requests.get(url).json() *)
    chat_create : nat -> Result ChatCompletion;  (* answer to the n-th create(...) *)
    post_json : nat -> Result Json }.            (* requests.post(url, json=...).json(), n-th *)

(** ** Program state *)

Record State : Type :=
  { messages : list Message;
    stdout : string;
    trace : list Event }.

Definition boot : State := {| messages := []; stdout := ""; trace := [] |}.

Definition is_chat (e : Event) : bool :=
  match e with ChatCreate _ _ _ => true | _ => false end.

Definition is_post (e : Event) : bool :=
  match e with Post _ _ => true | _ => false end.

Definition chat_calls (tr : list Event) : nat := length (filter is_chat tr).
Definition post_calls (tr : list Event) : nat := length (filter is_post tr).

(** ** The monad *)

Definition M (A : Type) : Type := State -> Result A * State.

Definition ret {A} (a : A) : M A := fun s => (Return a, s).

Definition bind {A B} (m : M A) (f : A -> M B) : M B :=
  fun s =>
    match m s with
    | (Return a, s') => f a s'
    | (Raise e, s') => (Raise e, s')
    end.

Definition lift {A} (r : Result A) : M A := fun s => (r, s).

Notation "x <- m ;; k" := (bind m (fun x => k))
  (at level 61, m at next level, right associativity).
Notation "m ;; k" := (bind m (fun _ => k))
  (at level 61, right associativity).

(** State updates: one request logged, one message appended, one line
    written. *)
Definition log (e : Event) (s : State) : State :=
  {| messages := messages s; stdout := stdout s; trace := trace s ++ [e] |}.

Definition push (m : Message) (s : State) : State :=
  {| messages := messages s ++ [m]; stdout := stdout s; trace := trace s |}.

Definition write (t : string) (s : State) : State :=
  {| messages := messages s; stdout := stdout s ++ t; trace := trace s |}.

Definition emit (e : Event) : M unit := fun s => (Return tt, log e s).

Definition get_messages : M (list Message) := fun s => (Return (messages s), s).

Definition set_messages (ms : list Message) : M unit :=
  fun s => (Return tt, {| messages := ms; stdout := stdout s; trace := trace s |}).

(** [messages.append(m)] *)
Definition append (m : Message) : M unit := fun s => (Return tt, push m s).

(** [str(x)] for an [Optional[str]]. *)
Definition py_str (x : option string) : string :=
  match x with
  | Some t => t
  | None => "None"
  end.

Definition newline : string := String (Ascii.ascii_of_nat 10) "".

(** [print(x)] *)
Definition print (x : option string) : M unit :=
  fun s => (Return tt, write (py_str x ++ newline) s).

Section Script.

Variable w : World.

(** [requests.get(url).json()] *)
Definition requests_get (url : string) : M Json :=
  emit (Get url) ;; lift (get_json w).

(** [client.chat.completions.create(model=..., tools=..., messages=...)] *)
Definition create (model : string) (tools : Json) (msgs : list Message)
  : M ChatCompletion :=
  fun s => (chat_create w (chat_calls (trace s)),
            log (ChatCreate model tools msgs) s).

(** [requests.post(url, json=payload).json()] *)
Definition requests_post (url : string) (payload : Json) : M Json :=
  fun s => (post_json w (post_calls (trace s)),
            log (Post url payload) s).

(** [response.choices[0]] *)
Definition first_choice (response : ChatCompletion) : Result Choice :=
  match choices response with
  | c :: _ => Return c
  | [] => Raise IndexError
  end.

(** Truth value of [msg.tool_calls]: [None] and [[]] are false. *)
Definition truthy (tcs : option (list ToolCall)) : bool :=
  match tcs with
  | Some (_ :: _) => true
  | _ => false
  end.

(** The list a [for call in msg.tool_calls] walks once the test above passed. *)
Definition iter_calls (tcs : option (list ToolCall)) : list ToolCall :=
  match tcs with
  | Some cs => cs
  | None => []
  end.

Definition call_payload (call : ToolCall) : Json :=
  JObj [("name", JStr (fn_name (call_function call)));
        ("arguments", JStr (fn_arguments (call_function call)))].

Definition tool_message (call : ToolCall) (result_content : Json) : Message :=
  Dict (JObj [("role", JStr "tool");
              ("tool_call_id", JStr (call_id call));
              ("content", result_content)]).

Definition tools_url : string := "http://localhost:3000/api/tools".
Definition call_url : string := "http://localhost:3000/api/tools/call".
Definition model_name : string := "qwen2.5:7b".

(** Body of the inner loop, lines 41-49. *)
Definition tool_step (call : ToolCall) : M unit :=
  result <- requests_post call_url (call_payload call) ;;
  c <- lift (subscript result "result") ;;
  append (tool_message call c).

(** [for call in msg.tool_calls: ...] *)
Fixpoint tool_loop (calls : list ToolCall) : M unit :=
  match calls with
  | [] => ret tt
  | call :: rest => tool_step call ;; tool_loop rest
  end.

(** What the body of a [for] loop tells the loop: go on with the next
    item, or leave ([break]). *)
Inductive Flow : Type :=
| Next
| Break.

(** How the [for] loop ends. *)
Inductive LoopExit : Type :=
| Broke        (* left through [break], after the [print] *)
| RanOut.      (* [range] was used up *)

(** Body of the outer loop, lines 28-49. *)
Definition round (tools : Json) : M Flow :=
  msgs <- get_messages ;;
  response <- create model_name tools msgs ;;
  choice <- lift (first_choice response) ;;
  let msg := message choice in
  append (Obj msg) ;;
  if negb (truthy (tool_calls msg)) then
    print (content msg) ;;
    ret Break
  else
    tool_loop (iter_calls (tool_calls msg)) ;;
    ret Next.

(** [for _ in range(rounds): ...], line 27. *)
Fixpoint agent_loop (tools : Json) (rounds : nat) : M LoopExit :=
  match rounds with
  | O => ret RanOut
  | S rounds' =>
      flow <- round tools ;;
      match flow with
      | Break => ret Broke
      | Next => agent_loop tools rounds'
      end
  end.

Definition system_prompt : string :=
  "You are a musicology research assistant. "
  ++ "Use the available tools to analyse the corpus. "
  ++ "When you find a relevant passage, write an annotation with a concise tag.".

Definition user_task : string :=
  "Search the corpus for uses of the word 'sublime' and annotate the three most significant passages.".

Definition system_message : Message :=
  Dict (JObj [("role", JStr "system"); ("content", JStr system_prompt)]).

Definition user_message : Message :=
  Dict (JObj [("role", JStr "user"); ("content", JStr user_task)]).

Definition initial_messages : list Message := [system_message; user_message].

(** Line 9. *)
Definition fetch_tools : M Json :=
  body <- requests_get tools_url ;;
  lift (subscript body "tools").

(** The whole script, with the bound of [range] as a parameter. *)
Definition run (max_rounds : nat) : M LoopExit :=
  tools <- fetch_tools ;;
  set_messages initial_messages ;;
  agent_loop tools max_rounds.

(** The script as written: [range(10)]. *)
Definition script : M LoopExit := run 10.

End Script.

(** ** Reading a world *)

(** The tool catalog of line 9, when the fetch goes through. *)
Definition catalog (w : World) : option Json :=
  match get_json w with
  | Return body =>
      match subscript body "tools" with
      | Return t => Some t
      | Raise _ => None
      end
  | Raise _ => None
  end.

(** The assistant message of the i-th chat call (counting from 0), when the
    call returns and has a first choice. *)
Definition reply (w : World) (i : nat) : option ChatCompletionMessage :=
  match chat_create w i with
  | Return r =>
      match first_choice r with
      | Return c => Some (message c)
      | Raise _ => None
      end
  | Raise _ => None
  end.

(** The exception lines 28-33 raise on the i-th chat call, if any. *)
Definition chat_failure (w : World) (i : nat) : option PyExc :=
  match chat_create w i with
  | Return r =>
      match first_choice r with
      | Return _ => None
      | Raise e => Some e
      end
  | Raise e => Some e
  end.

(** The exception line 9 raises, if any. *)
Definition fetch_failure (w : World) : option PyExc :=
  match get_json w with
  | Return body =>
      match subscript body "tools" with
      | Return _ => None
      | Raise e => Some e
      end
  | Raise e => Some e
  end.

(** The exception line 41-48 raises on the j-th tool invocation, if any. *)
Definition tool_failure (w : World) (j : nat) : option PyExc :=
  match post_json w j with
  | Return v =>
      match subscript v "result" with
      | Return _ => None
      | Raise e => Some e
      end
  | Raise e => Some e
  end.

(** [result["result"]] of the j-th tool invocation. *)
Definition tool_result (w : World) (j : nat) : option Json :=
  match post_json w j with
  | Return v =>
      match subscript v "result" with
      | Return c => Some c
      | Raise _ => None
      end
  | Raise _ => None
  end.

Definition requested (w : World) (i : nat) : list ToolCall :=
  match reply w i with
  | Some m => iter_calls (tool_calls m)
  | None => []
  end.

(** Number of tool-call requests carried by the first [i] replies. *)
Fixpoint posts_before (w : World) (i : nat) : nat :=
  match i with
  | O => 0
  | S i' => posts_before w i' + length (requested w i')
  end.

(** The [tool] messages for [calls] given their results, pairwise. *)
Definition tool_messages (calls : list ToolCall) (results : list Json)
  : list Message :=
  map (fun cv => tool_message (fst cv) (snd cv)) (combine calls results).

Definition post_event (call : ToolCall) : Event :=
  Post call_url (call_payload call).

(** ** Weakest preconditions *)

Definition wp {A} (m : M A) (Q : A -> State -> Prop)
  (E : PyExc -> State -> Prop) (s : State) : Prop :=
  match m s with
  | (Return a, s') => Q a s'
  | (Raise e, s') => E e s'
  end.

Definition hoare {A} (P : State -> Prop) (m : M A) (Q : A -> State -> Prop)
  (E : PyExc -> State -> Prop) : Prop :=
  forall s, P s -> wp m Q E s.

(** ** States a run passes through *)

Definition or_null (x : option Json) : Json :=
  match x with
  | Some v => v
  | None => JNull
  end.

(** The results of [len] consecutive tool invocations, the first being
    invocation number [p]. *)
Fixpoint results_from (w : World) (p len : nat) : list Json :=
  match len with
  | O => []
  | S len' => or_null (tool_result w p) :: results_from w (S p) len'
  end.

(** [messages] after [c] rounds that all asked for tools and got them. *)
Fixpoint transcript_after (w : World) (c : nat) : list Message :=
  match c with
  | O => initial_messages
  | S c' =>
      transcript_after w c'
      ++ match reply w c' with
         | Some m =>
             Obj m :: tool_messages (requested w c')
                        (results_from w (posts_before w c') (length (requested w c')))
         | None => []
         end
  end.

(** The requests sent during those [c] rounds, after the catalog fetch. *)
Fixpoint trace_after (w : World) (tools : Json) (c : nat) : list Event :=
  match c with
  | O => [Get tools_url]
  | S c' =>
      trace_after w tools c'
      ++ ChatCreate model_name tools (transcript_after w c')
         :: map post_event (requested w c')
  end.

Definition state_after (w : World) (tools : Json) (c : nat) : State :=
  {| messages := transcript_after w c;
     stdout := "";
     trace := trace_after w tools c |}.

(** Reply [i] asks for at least one tool. *)
Definition asks_tools (w : World) (i : nat) : Prop :=
  exists m, reply w i = Some m /\ truthy (tool_calls m) = true.

(** ** Ways a run can end *)

(** The first [c] rounds all asked for tools and every invocation of theirs
    came back with a result. *)
Definition advances (w : World) (c : nat) : Prop :=
  (forall i, i < c -> asks_tools w i) /\
  (forall j, j < posts_before w c -> tool_failure w j = None).

Inductive run_outcome (w : World) (n : nat) : Result LoopExit -> State -> Prop :=
| fetch_failed e :
    fetch_failure w = Some e ->
    run_outcome w n (Raise e) (log (Get tools_url) boot)
| chat_failed tools c e :
    catalog w = Some tools -> c < n -> advances w c ->
    chat_failure w c = Some e ->
    run_outcome w n (Raise e)
      (log (ChatCreate model_name tools (transcript_after w c))
           (state_after w tools c))
| answered tools c m :
    catalog w = Some tools -> c < n -> advances w c ->
    reply w c = Some m -> truthy (tool_calls m) = false ->
    run_outcome w n (Return Broke)
      {| messages := transcript_after w c ++ [Obj m];
         stdout := py_str (content m) ++ newline;
         trace := trace_after w tools c
                  ++ [ChatCreate model_name tools (transcript_after w c)] |}
| tool_failed tools c m (done : list ToolCall) call rest e :
    catalog w = Some tools -> c < n -> advances w c ->
    reply w c = Some m -> truthy (tool_calls m) = true ->
    iter_calls (tool_calls m) = done ++ call :: rest ->
    (forall i, i < length done -> tool_failure w (posts_before w c + i) = None) ->
    tool_failure w (posts_before w c + length done) = Some e ->
    run_outcome w n (Raise e)
      {| messages := transcript_after w c
                     ++ Obj m :: tool_messages done
                                   (results_from w (posts_before w c) (length done));
         stdout := "";
         trace := trace_after w tools c
                  ++ ChatCreate model_name tools (transcript_after w c)
                     :: map post_event (done ++ [call]) |}
| exhausted tools :
    catalog w = Some tools -> advances w n ->
    run_outcome w n (Return RanOut) (state_after w tools n).

(** ** Shape of transcripts and requests *)

(** [m["role"]] for a dict; the message object of the chat client is an
    assistant message. *)
Definition role (m : Message) : option Json :=
  match m with
  | Dict d =>
      match subscript d "role" with
      | Return r => Some r
      | Raise _ => None
      end
  | Obj _ => Some (JStr "assistant")
  end.

(** The two messages of lines 11-24, as written there. *)
Definition opening : list Message :=
  [Dict (JObj [("role", JStr "system");
               ("content",
                JStr "You are a musicology research assistant. Use the available tools to analyse the corpus. When you find a relevant passage, write an annotation with a concise tag.")]);
   Dict (JObj [("role", JStr "user");
               ("content",
                JStr "Search the corpus for uses of the word 'sublime' and annotate the three most significant passages.")])].

(** What the loop appends: the message object of a chat reply, or the dict
    of lines 45-49. *)
Definition appended (m : Message) : Prop :=
  (exists o, m = Obj o) \/
  (exists id result,
      m = Dict (JObj [("role", JStr "tool");
                      ("tool_call_id", JStr id);
                      ("content", result)])).

(** [s] holds [ms0] followed by assistant and tool messages only. *)
Definition extends (ms0 : list Message) (s : State) : Prop :=
  exists ext, messages s = ms0 ++ ext /\ Forall appended ext.

(** The transcripts the chat service was shown, oldest first. *)
Fixpoint snapshots (tr : list Event) : list (list Message) :=
  match tr with
  | [] => []
  | ChatCreate _ _ ms :: rest => ms :: snapshots rest
  | _ :: rest => snapshots rest
  end.

(** Each list is the one before it with messages added at the end. *)
Fixpoint growing (l : list (list Message)) : Prop :=
  match l with
  | [] => True
  | a :: rest =>
      match rest with
      | [] => True
      | b :: _ => exists ext, b = a ++ ext
      end /\ growing rest
  end.

(** What the chat service saw so far, then what [messages] holds now. *)
Definition history (s : State) : list (list Message) :=
  snapshots (trace s) ++ [messages s].

(** The transcript is the initial pair followed by whole turns: an
    assistant message that asks for tools, then one [tool] message for each
    of its requests, in order. *)
Inductive whole_turns : list Message -> Prop :=
| no_turn : whole_turns initial_messages
| one_more_turn ms m results :
    whole_turns ms ->
    truthy (tool_calls m) = true ->
    length results = length (iter_calls (tool_calls m)) ->
    whole_turns (ms ++ Obj m :: tool_messages (iter_calls (tool_calls m)) results).

(** [msgs] are the [tool] messages of [calls], one per request and in their
    order, when the first of them is invocation number [p] of the run: each
    holds the id of its request and the [result] entry the tool service
    returned for that very invocation. *)
Inductive results_for (w : World) : nat -> list ToolCall -> list Message -> Prop :=
| results_none p : results_for w p [] []
| results_next p call rest result msgs :
    tool_result w p = Some result ->
    results_for w (S p) rest msgs ->
    results_for w p (call :: rest)
      (Dict (JObj [("role", JStr "tool");
                   ("tool_call_id", JStr (call_id call));
                   ("content", result)]) :: msgs).


Definition is_dict (m : Message) : bool :=
  match m with
  | Dict _ => true
  | Obj _ => false
  end.

(** What a request logged by a run of at most [n] rounds looks like. *)
Definition sound_event (w : World) (n : nat) (e : Event) : Prop :=
  match e with
  | Get url => url = tools_url
  | ChatCreate model tools msgs =>
      model = model_name /\ catalog w = Some tools /\
      exists c, c < n /\ advances w c /\ msgs = transcript_after w c
  | Post url payload =>
      url = call_url /\
      exists i call, i < n /\ In call (requested w i) /\ payload = call_payload call
  end.

Definition is_get (e : Event) : bool :=
  match e with Get _ => true | _ => false end.

Definition is_tool_message (m : Message) : bool :=
  match role m with
  | Some (JStr r) => String.eqb r "tool"
  | _ => false
  end.

Definition tool_message_count (ms : list Message) : nat :=
  length (filter is_tool_message ms).

(** ** Comparing two runs *)

(** Two worlds give the same answers to the calls logged in [tr]. *)
Definition agree (w1 w2 : World) (tr : list Event) : Prop :=
  (forall i, i < chat_calls tr -> chat_create w1 i = chat_create w2 i) /\
  (forall j, j < post_calls tr -> post_json w1 j = post_json w2 j).

(** [m1] only adds to the log, and [m2] does what [m1] does as long as the
    two worlds agree on the calls [m1] ends up having made. *)
Definition same_run {A} (w1 w2 : World) (m1 m2 : M A) : Prop :=
  forall s,
    (exists ext, trace (snd (m1 s)) = trace s ++ ext) /\
    (agree w1 w2 (trace (snd (m1 s))) -> m2 s = m1 s).

(** ** Sample collaborators *)

Definition quote : string := String (Ascii.ascii_of_nat 34) "".

Definition search_call : ToolCall :=
  {| call_id := "t1";
     call_function :=
       {| fn_name := "search";
          fn_arguments := "{" ++ quote ++ "query" ++ quote ++ ": "
                          ++ quote ++ "sublime" ++ quote ++ "}" |} |}.

Definition annotate_call : ToolCall :=
  {| call_id := "t2";
     call_function :=
       {| fn_name := "annotate";
          fn_arguments := "{" ++ quote ++ "tag" ++ quote ++ ": "
                          ++ quote ++ "awe" ++ quote ++ "}" |} |}.

Definition sample_tools : Json :=
  JArr [JObj [("type", JStr "function");
              ("function", JObj [("name", JStr "search");
                                 ("description", JStr "Search the corpus")])]].

Definition asking (calls : list ToolCall) : Result ChatCompletion :=
  Return {| choices := [{| message := {| content := None;
                                         tool_calls := Some calls |} |}] |}.

Definition saying (text : string) : Result ChatCompletion :=
  Return {| choices := [{| message := {| content := Some text;
                                         tool_calls := None |} |}] |}.

(** One search, then the final answer. *)
Definition scenario : World :=
  {| get_json := Return (JObj [("tools", sample_tools)]);
     chat_create := fun i =>
       match i with
       | O => asking [search_call]
       | S _ => saying "Done - annotated 3 passages."
       end;
     post_json := fun _ => Return (JObj [("result", JStr "3 passages found")]) |}.

(** The model never stops asking for tools. *)
Definition insatiable : World :=
  {| get_json := Return (JObj [("tools", sample_tools)]);
     chat_create := fun _ => asking [search_call; annotate_call];
     post_json := fun j => Return (JObj [("result", JInt (Z.of_nat j))]) |}.

(** The tool service answers the first invocation with an error document. *)
Definition unknown_tool : World :=
  {| get_json := Return (JObj [("tools", sample_tools)]);
     chat_create := fun i =>
       match i with
       | O => asking [search_call; annotate_call]
       | S _ => saying "Giving up."
       end;
     post_json := fun _ => Return (JObj [("error", JStr "Unknown tool: search")]) |}.

(** A variant of [scenario] that differs only in answers never asked for. *)
Definition scenario_later : World :=
  {| get_json := get_json scenario;
     chat_create := fun i =>
       match i with
       | 0 | 1 => chat_create scenario i
       | _ => Raise APIError
       end;
     post_json := fun j =>
       match j with
       | 0 => post_json scenario j
       | _ => Raise RequestException
       end |}.

(** ** The requests of a whole run *)

(** The tool-call requests of the first [c] replies, in the order emitted. *)
Definition all_requests (w : World) (c : nat) : list ToolCall :=
  flat_map (requested w) (seq 0 c).

(** A catalog document without a [tools] entry. *)
Definition no_catalog : World :=
  {| get_json := Return (JObj [("error", JStr "registry offline")]);
     chat_create := fun _ => saying "unreachable";
     post_json := fun _ => Return JNull |}.

(** The chat service answers the second call with no choices at all. *)
Definition no_choices : World :=
  {| get_json := Return (JObj [("tools", sample_tools)]);
     chat_create := fun i =>
       match i with
       | O => asking [search_call]
       | S _ => Return {| choices := [] |}
       end;
     post_json := fun _ => Return (JObj [("result", JStr "3 passages found")]) |}.

(** * Properties *)

Lemma wp_bind {A B} (m : M A) (f : A -> M B) Q E s :
  wp (bind m f) Q E s <-> wp m (fun a => wp (f a) Q E) E s.
Proof.
  unfold wp, bind. destruct (m s) as [[a | e] s']; tauto.
Qed.

Lemma wp_mono {A} (m : M A) (Q Q' : A -> State -> Prop) (E E' : PyExc -> State -> Prop) s :
  wp m Q E s ->
  (forall a s', Q a s' -> Q' a s') ->
  (forall e s', E e s' -> E' e s') ->
  wp m Q' E' s.
Proof.
  unfold wp. destruct (m s) as [[a | e] s']; auto.
Qed.

Lemma hoare_bind {A B} P (m : M A) (f : A -> M B) R Q E :
  hoare P m R E ->
  (forall a, hoare (R a) (f a) Q E) ->
  hoare P (bind m f) Q E.
Proof.
  intros Hm Hf s Hs. apply wp_bind.
  eapply wp_mono; [apply Hm, Hs | | auto].
  intros a s' Ha. apply Hf, Ha.
Qed.

Section LoopRules.

Variable w : World.

(** An invariant indexed by the calls still to run. *)
Lemma hoare_tool_loop (I : list ToolCall -> State -> Prop) E :
  (forall c rest, hoare (I (c :: rest)) (tool_step w c) (fun _ => I rest) E) ->
  forall cs, hoare (I cs) (tool_loop w cs) (fun _ => I []) E.
Proof.
  intros Hstep. induction cs as [| c rest IH].
  - intros s Hs. exact Hs.
  - simpl. eapply hoare_bind; [apply Hstep | intros u; apply IH].
Qed.

(** An invariant indexed by the rounds still to run. *)
Lemma hoare_agent_loop (I : nat -> State -> Prop) Q E tools :
  (forall k, hoare (I (S k)) (round w tools)
               (fun f s => match f with
                           | Break => Q Broke s
                           | Next => I k s
                           end) E) ->
  (forall s, I 0 s -> Q RanOut s) ->
  forall n, hoare (I n) (agent_loop w tools n) Q E.
Proof.
  intros Hround Hout. induction n as [| n IH].
  - intros s Hs. apply Hout, Hs.
  - simpl. eapply hoare_bind; [apply Hround |].
    intros [|]; [apply IH |].
    intros s Hs. exact Hs.
Qed.

End LoopRules.

(** ** Counting requests *)

Lemma chat_calls_app tr tr' :
  chat_calls (tr ++ tr') = chat_calls tr + chat_calls tr'.
Proof. unfold chat_calls. now rewrite filter_app, length_app. Qed.

Lemma post_calls_app tr tr' :
  post_calls (tr ++ tr') = post_calls tr + post_calls tr'.
Proof. unfold post_calls. now rewrite filter_app, length_app. Qed.

Lemma chat_calls_posts cs : chat_calls (map post_event cs) = 0.
Proof. induction cs; auto. Qed.

Lemma post_calls_posts cs : post_calls (map post_event cs) = length cs.
Proof. unfold post_calls. induction cs; simpl; auto. Qed.

(** ** One step of each loop, spelled out *)

Section Steps.

Variable w : World.

Lemma tool_step_result c s v :
  tool_result w (post_calls (trace s)) = Some v ->
  tool_step w c s = (Return tt, push (tool_message c v) (log (post_event c) s)).
Proof.
  unfold tool_result, tool_step, bind, requests_post, lift, append. intros H.
  destruct (post_json w (post_calls (trace s))) as [body | e]; [| discriminate].
  destruct (subscript body "result") as [x | e]; [| discriminate].
  now inversion H.
Qed.

Lemma tool_step_failure c s e :
  tool_failure w (post_calls (trace s)) = Some e ->
  tool_step w c s = (Raise e, log (post_event c) s).
Proof.
  unfold tool_failure, tool_step, bind, requests_post, lift, append. intros H.
  destruct (post_json w (post_calls (trace s))) as [body | e']; [| now inversion H].
  destruct (subscript body "result") as [x | e']; [discriminate | now inversion H].
Qed.

Lemma tool_outcome j :
  (exists v, tool_result w j = Some v /\ tool_failure w j = None) \/
  (exists e, tool_failure w j = Some e /\ tool_result w j = None).
Proof.
  unfold tool_result, tool_failure.
  destruct (post_json w j) as [body | e]; [| right; eauto].
  destruct (subscript body "result") as [x | e]; [left | right]; eauto.
Qed.

(** The inner loop when every invocation comes back with a result. *)
Lemma tool_loop_returns cs : forall s vs,
  length vs = length cs ->
  (forall i, i < length cs ->
             tool_result w (post_calls (trace s) + i) = Some (nth i vs JNull)) ->
  tool_loop w cs s =
    (Return tt, {| messages := messages s ++ tool_messages cs vs;
                   stdout := stdout s;
                   trace := trace s ++ map post_event cs |}).
Proof.
  induction cs as [| c rest IH]; intros s vs Hlen Hres.
  - destruct vs; [| discriminate]. destruct s. unfold tool_messages. simpl.
    now rewrite !app_nil_r.
  - destruct vs as [| v vs]; [discriminate |].
    simpl. unfold bind.
    rewrite (@tool_step_result c s v).
    2:{ specialize (Hres 0). rewrite Nat.add_0_r in Hres. apply Hres. simpl. lia. }
    rewrite (IH _ vs).
    + unfold tool_messages. simpl. now rewrite <- !app_assoc.
    + simpl in Hlen. lia.
    + intros i Hi. cbn [trace push log]. rewrite post_calls_app.
      change (post_calls [post_event c]) with 1.
      specialize (Hres (S i)). simpl in Hres.
      replace (post_calls (trace s) + 1 + i) with (post_calls (trace s) + S i) by lia.
      apply Hres. lia.
Qed.

(** The body of the outer loop once the chat call has delivered [m]. *)
Lemma round_reply tools s m :
  reply w (chat_calls (trace s)) = Some m ->
  round w tools s =
    let s1 := push (Obj m) (log (ChatCreate model_name tools (messages s)) s) in
    if truthy (tool_calls m) then
      match tool_loop w (iter_calls (tool_calls m)) s1 with
      | (Return _, s2) => (Return Next, s2)
      | (Raise e, s2) => (Raise e, s2)
      end
    else (Return Break, write (py_str (content m) ++ newline) s1).
Proof.
  unfold reply, round, bind, get_messages, create, lift, append, print, ret.
  intros H.
  destruct (chat_create w (chat_calls (trace s))) as [r | e]; [| discriminate].
  destruct (first_choice r) as [c | e]; [| discriminate].
  inversion H; subst m. simpl.
  destruct (truthy (tool_calls (message c))); simpl; [| reflexivity].
  destruct (tool_loop w _ _) as [[u | e] s2]; reflexivity.
Qed.

End Steps.

(** ** Runs in which every call made so far came back *)

Section Progress.

Variable w : World.

Lemma length_results_from len : forall p, length (results_from w p len) = len.
Proof. induction len; simpl; auto. Qed.

Lemma nth_results_from len : forall p i,
  i < len -> nth i (results_from w p len) JNull = or_null (tool_result w (p + i)).
Proof.
  induction len as [| len IH]; intros p i Hi; [lia |].
  destruct i as [| i]; simpl.
  - now rewrite Nat.add_0_r.
  - rewrite IH by lia. f_equal. f_equal. lia.
Qed.

Lemma tool_loop_succeeds cs s :
  (forall i, i < length cs -> tool_failure w (post_calls (trace s) + i) = None) ->
  tool_loop w cs s =
    (Return tt,
     {| messages := messages s
                    ++ tool_messages cs (results_from w (post_calls (trace s)) (length cs));
        stdout := stdout s;
        trace := trace s ++ map post_event cs |}).
Proof.
  intros H. apply tool_loop_returns.
  - apply length_results_from.
  - intros i Hi. rewrite nth_results_from by assumption.
    destruct (tool_outcome w (post_calls (trace s) + i)) as [[v [Hv _]] | [e [He _]]].
    + now rewrite Hv.
    + rewrite H in He by assumption. discriminate.
Qed.

Lemma chat_calls_trace_after tools c : chat_calls (trace_after w tools c) = c.
Proof.
  induction c as [| c IH]; [reflexivity |].
  simpl. rewrite chat_calls_app, IH.
  change (chat_calls (ChatCreate ?m ?t ?ms :: ?l)) with (S (chat_calls l)).
  rewrite chat_calls_posts. lia.
Qed.

Lemma post_calls_trace_after tools c :
  post_calls (trace_after w tools c) = posts_before w c.
Proof.
  induction c as [| c IH]; [reflexivity |].
  simpl. rewrite post_calls_app, IH.
  change (post_calls (ChatCreate ?m ?t ?ms :: ?l)) with (post_calls l).
  now rewrite post_calls_posts.
Qed.

(** A round that asks for tools and gets every result moves the state from
    [state_after c] to [state_after (S c)]. *)
Lemma round_advances tools c :
  asks_tools w c ->
  (forall j, j < posts_before w (S c) -> tool_failure w j = None) ->
  round w tools (state_after w tools c) = (Return Next, state_after w tools (S c)).
Proof.
  intros [m [Hm Ht]] Hok.
  rewrite (@round_reply w tools _ m) by (simpl; now rewrite chat_calls_trace_after).
  cbv zeta. rewrite Ht.
  rewrite tool_loop_succeeds.
  - unfold state_after. simpl. unfold requested. rewrite Hm.
    rewrite post_calls_app, post_calls_trace_after.
    change (post_calls [?e]) with 0. rewrite Nat.add_0_r.
    now rewrite <- !app_assoc.
  - intros i Hi. apply Hok. simpl. rewrite post_calls_app, post_calls_trace_after.
    change (post_calls [?e]) with 0. simpl. unfold requested. rewrite Hm. lia.
Qed.

(** The last round: a reply without tool calls is printed and ends the loop. *)
Lemma round_finishes tools c m :
  reply w c = Some m ->
  truthy (tool_calls m) = false ->
  round w tools (state_after w tools c) =
    (Return Break,
     {| messages := transcript_after w c ++ [Obj m];
        stdout := py_str (content m) ++ newline;
        trace := trace_after w tools c
                 ++ [ChatCreate model_name tools (transcript_after w c)] |}).
Proof.
  intros Hm Ht.
  rewrite (@round_reply w tools _ m) by (simpl; now rewrite chat_calls_trace_after).
  cbv zeta. rewrite Ht. reflexivity.
Qed.

Lemma posts_before_mono c c' : c <= c' -> posts_before w c <= posts_before w c'.
Proof. induction 1; simpl; lia. Qed.

(** [d] more rounds with tools, all answered. *)
Lemma agent_loop_advances tools d : forall c n,
  (forall i, c <= i < c + d -> asks_tools w i) ->
  (forall j, j < posts_before w (c + d) -> tool_failure w j = None) ->
  agent_loop w tools (d + n) (state_after w tools c) =
  agent_loop w tools n (state_after w tools (c + d)).
Proof.
  induction d as [| d IH]; intros c n Hask Hok.
  - now rewrite Nat.add_0_r.
  - simpl. unfold bind at 1. rewrite round_advances.
    + rewrite IH; [f_equal; f_equal; lia | |].
      * intros i Hi. apply Hask. lia.
      * intros j Hj. apply Hok. now replace (c + S d) with (S c + d) by lia.
    + apply Hask. lia.
    + intros j Hj. apply Hok.
      eapply Nat.lt_le_trans; [exact Hj | apply posts_before_mono; lia].
Qed.

(** The script up to the loop. *)
Lemma run_fetched n tools :
  catalog w = Some tools ->
  run w n boot = agent_loop w tools n (state_after w tools 0).
Proof.
  unfold catalog, run, fetch_tools, requests_get, bind, emit, lift, set_messages.
  intros H. simpl.
  destruct (get_json w) as [body | e]; [| discriminate].
  destruct (subscript body "tools") as [t | e]; [| discriminate].
  now inversion H.
Qed.

End Progress.

(** ** Every way a run can end *)

Section Outcomes.

Variable w : World.

Lemma chat_outcome i :
  (exists m, reply w i = Some m /\ chat_failure w i = None) \/
  (exists e, chat_failure w i = Some e /\ reply w i = None).
Proof.
  unfold reply, chat_failure.
  destruct (chat_create w i) as [r | e]; [| right; eauto].
  destruct (first_choice r) as [c | e]; [left | right]; eauto.
Qed.

Lemma fetch_outcome :
  (exists t, catalog w = Some t /\ fetch_failure w = None) \/
  (exists e, fetch_failure w = Some e /\ catalog w = None).
Proof.
  unfold catalog, fetch_failure.
  destruct (get_json w) as [body | e]; [| right; eauto].
  destruct (subscript body "tools") as [c | e]; [left | right]; eauto.
Qed.

Lemma round_chat_failure tools s e :
  chat_failure w (chat_calls (trace s)) = Some e ->
  round w tools s = (Raise e, log (ChatCreate model_name tools (messages s)) s).
Proof.
  unfold chat_failure, round, bind, get_messages, create, lift.
  intros H.
  destruct (chat_create w (chat_calls (trace s))) as [r | e']; [| now inversion H].
  destruct (first_choice r) as [c | e']; [discriminate | now inversion H].
Qed.

Lemma run_fetch_failure n e :
  fetch_failure w = Some e ->
  run w n boot = (Raise e, log (Get tools_url) boot).
Proof.
  unfold fetch_failure, run, fetch_tools, requests_get, bind, emit, lift.
  intros H. simpl.
  destruct (get_json w) as [body | e']; [| now inversion H].
  destruct (subscript body "tools") as [t | e']; [discriminate | now inversion H].
Qed.

(** The inner loop either gets through, or stops at the first invocation
    that fails, having appended the results of those before it. *)
Lemma tool_loop_cases cs : forall s,
  (forall i, i < length cs -> tool_failure w (post_calls (trace s) + i) = None) \/
  exists done call rest e,
    cs = done ++ call :: rest /\
    (forall i, i < length done -> tool_failure w (post_calls (trace s) + i) = None) /\
    tool_failure w (post_calls (trace s) + length done) = Some e /\
    tool_loop w cs s =
      (Raise e,
       {| messages := messages s
                      ++ tool_messages done
                           (results_from w (post_calls (trace s)) (length done));
          stdout := stdout s;
          trace := trace s ++ map post_event (done ++ [call]) |}).
Proof.
  induction cs as [| c cs IH]; intros s.
  - left. simpl. intros i Hi. lia.
  - destruct (tool_outcome w (post_calls (trace s))) as [[v [Hv Hnone]] | [e [He _]]].
    + destruct (IH (push (tool_message c v) (log (post_event c) s)))
        as [Hall | [done [call [rest [e [Hcs [Hdone [He Hrun]]]]]]]];
        cbn [trace push log] in *; rewrite post_calls_app in *;
        change (post_calls [post_event c]) with 1 in *.
      * left. intros [| i] Hi; [now rewrite Nat.add_0_r |].
        replace (post_calls (trace s) + S i) with (post_calls (trace s) + 1 + i) by lia.
        apply Hall. simpl in Hi. lia.
      * right. exists (c :: done), call, rest, e. repeat split.
        -- simpl. now rewrite Hcs.
        -- intros [| i] Hi; [now rewrite Nat.add_0_r |].
           replace (post_calls (trace s) + S i) with (post_calls (trace s) + 1 + i) by lia.
           apply Hdone. simpl in Hi. lia.
        -- simpl. now replace (post_calls (trace s) + S (length done))
             with (post_calls (trace s) + 1 + length done) by lia.
        -- simpl. unfold bind. rewrite (tool_step_result _ c s Hv). rewrite Hrun.
           cbn [messages stdout trace push log]. rewrite Hv.
           unfold tool_messages. simpl.
           replace (post_calls (trace s) + 1) with (S (post_calls (trace s))) by lia.
           now rewrite <- !app_assoc.
    + right. exists [], c, cs, e. repeat split.
      * intros i Hi. simpl in Hi. lia.
      * simpl. now rewrite Nat.add_0_r.
      * simpl. unfold bind. rewrite (tool_step_failure _ c s He).
        destruct s. unfold tool_messages, log. simpl. now rewrite app_nil_r.
Qed.

Lemma advances_next c :
  advances w c -> asks_tools w c ->
  (forall i, i < length (requested w c) -> tool_failure w (posts_before w c + i) = None) ->
  advances w (S c).
Proof.
  intros [Hask Hok] Hc Hres. split.
  - intros i Hi. destruct (Nat.eq_dec i c) as [-> |]; [assumption | apply Hask; lia].
  - intros j Hj. simpl in Hj.
    destruct (Nat.lt_ge_cases j (posts_before w c)) as [Hlt | Hge]; [now apply Hok |].
    replace j with (posts_before w c + (j - posts_before w c)) by lia.
    apply Hres. lia.
Qed.

Lemma agent_loop_cases tools n :
  catalog w = Some tools ->
  forall d c, c + d = n -> advances w c ->
  run_outcome w n (fst (agent_loop w tools d (state_after w tools c)))
                  (snd (agent_loop w tools d (state_after w tools c))).
Proof.
  intros Hcat. induction d as [| d IH]; intros c Hn Hadv.
  - simpl. assert (c = n) by lia. subst c. now apply exhausted.
  - simpl. unfold bind.
    destruct (chat_outcome c) as [[m [Hm _]] | [e [He _]]].
    + rewrite (@round_reply w tools _ m) by (simpl; now rewrite chat_calls_trace_after).
      cbv zeta. destruct (truthy (tool_calls m)) eqn:Ht.
      * set (s1 := push (Obj m)
                     (log (ChatCreate model_name tools
                             (messages (state_after w tools c)))
                          (state_after w tools c))).
        assert (Hp : post_calls (trace s1) = posts_before w c).
        { unfold s1. cbn [trace push log state_after].
          rewrite post_calls_app, post_calls_trace_after.
          change (post_calls [ChatCreate ?a ?b ?x]) with 0. lia. }
        destruct (tool_loop_cases (iter_calls (tool_calls m)) s1)
          as [Hall | [done [call [rest [e [Hcs [Hdone [He Hrun]]]]]]]];
          rewrite Hp in *.
        -- assert (Hask : asks_tools w c) by (exists m; auto).
           assert (Hadv' : advances w (S c)).
           { apply advances_next; auto. unfold requested. now rewrite Hm. }
           pose proof (round_advances tools Hask (proj2 Hadv')) as Hr.
           rewrite (@round_reply w tools _ m) in Hr
             by (simpl; now rewrite chat_calls_trace_after).
           cbv zeta in Hr. rewrite Ht in Hr. fold s1 in Hr.
           destruct (tool_loop w (iter_calls (tool_calls m)) s1) as [[u | e'] s2];
             [| discriminate].
           inversion Hr; subst s2. apply IH; [lia | assumption].
        -- rewrite Hrun. cbn [fst snd]. subst s1.
           cbn [messages stdout trace push log state_after].
           rewrite <- !app_assoc.
           eapply tool_failed; eauto. lia.
      * cbn [fst snd]. unfold write, push, log. simpl.
        eapply answered; eauto. lia.
    + rewrite (@round_chat_failure tools _ e)
        by (simpl; now rewrite chat_calls_trace_after).
      cbn [fst snd]. eapply chat_failed; eauto. lia.
Qed.

Lemma advances_0 : advances w 0.
Proof. split; intros i Hi; simpl in Hi; lia. Qed.

(** Whatever the collaborators do, the script ends in one of the five ways
    above. *)
Lemma run_cases n :
  run_outcome w n (fst (run w n boot)) (snd (run w n boot)).
Proof.
  destruct fetch_outcome as [[t [Ht _]] | [e [He _]]].
  - rewrite (run_fetched _ n Ht). apply agent_loop_cases; auto using advances_0.
  - rewrite (run_fetch_failure n He). now apply fetch_failed.
Qed.

End Outcomes.

(** ** Termination on the first reply without tool calls *)

(** C1. If the k-th reply (1 <= k <= max_rounds) is the first one whose
    [tool_calls] is empty or absent, and the calls of the earlier rounds
    came back, the run leaves the loop through [break] after exactly k chat
    calls, and what it has printed is that reply's [content], once. *)
Theorem first_plain_reply_ends_run w n k tools mk :
  catalog w = Some tools ->
  1 <= k <= n ->
  (forall i, i < k - 1 -> asks_tools w i) ->
  reply w (k - 1) = Some mk ->
  truthy (tool_calls mk) = false ->
  (forall j, j < posts_before w (k - 1) -> tool_failure w j = None) ->
  exists s,
    run w n boot = (Return Broke, s) /\
    chat_calls (trace s) = k /\
    stdout s = (py_str (content mk) ++ newline)%string /\
    messages s = transcript_after w (k - 1) ++ [Obj mk].
Proof.
  intros Hcat Hk Hask Hmk Hplain Hok.
  rewrite (run_fetched _ n Hcat).
  replace n with ((k - 1) + S (n - k)) by lia.
  rewrite agent_loop_advances; [| intros i Hi; apply Hask; lia | exact Hok].
  simpl. unfold bind. rewrite (round_finishes _ tools _ Hmk Hplain).
  eexists. split; [reflexivity |]. cbn [messages stdout trace]. repeat split.
  rewrite chat_calls_app, chat_calls_trace_after.
  change (chat_calls [ChatCreate ?a ?b ?x]) with 1. lia.
Qed.

Lemma first_plain_reply_ends_run_witness :
  exists s,
    script scenario boot = (Return Broke, s) /\
    chat_calls (trace s) = 2 /\
    stdout s = ("Done - annotated 3 passages." ++ newline)%string /\
    messages s = transcript_after scenario 1
                 ++ [Obj {| content := Some "Done - annotated 3 passages.";
                            tool_calls := None |}].
Proof.
  apply (@first_plain_reply_ends_run scenario 10 2 sample_tools
           {| content := Some "Done - annotated 3 passages."; tool_calls := None |}).
  - reflexivity.
  - lia.
  - intros i Hi. assert (i = 0) by lia. subst i.
    eexists. split; reflexivity.
  - reflexivity.
  - reflexivity.
  - intros j Hj. simpl in Hj. reflexivity.
Defined.

(** ** The round budget *)

Lemma chat_calls_outcome w n r s :
  run_outcome w n r s ->
  chat_calls (trace s) <= n /\ (r = Return RanOut -> chat_calls (trace s) = n).
Proof.
  intros H.
  destruct H; (split; [| intros Hr; try discriminate Hr]);
    cbn [trace log state_after boot];
    rewrite ?chat_calls_app, ?chat_calls_trace_after;
    try change (chat_calls (ChatCreate ?a ?b ?x :: ?l)) with (S (chat_calls l));
    rewrite ?chat_calls_posts;
    try change (chat_calls []) with 0;
    try change (chat_calls [Get ?u]) with 0;
    lia.
Qed.

(** C2. No run makes more than max_rounds chat calls; and when each of the
    first max_rounds replies asks for tools (and the tools answer), the run
    makes exactly max_rounds chat calls and falls out of the loop with the
    range used up. *)
Theorem budget_respected w n :
  chat_calls (trace (snd (run w n boot))) <= n /\
  (forall tools,
      catalog w = Some tools ->
      (forall i, i < n -> asks_tools w i) ->
      (forall j, j < posts_before w n -> tool_failure w j = None) ->
      exists s,
        run w n boot = (Return RanOut, s) /\
        chat_calls (trace s) = n).
Proof.
  split.
  - apply (chat_calls_outcome (run_cases w n)).
  - intros tools Hcat Hask Hok.
    rewrite (run_fetched _ n Hcat).
    assert (H : agent_loop w tools (n + 0) (state_after w tools 0) =
                agent_loop w tools 0 (state_after w tools (0 + n))).
    { apply agent_loop_advances; [intros i Hi; apply Hask; lia | exact Hok]. }
    rewrite Nat.add_0_r in H. rewrite H. simpl.
    eexists. split; [reflexivity |].
    apply chat_calls_trace_after.
Qed.

Lemma budget_respected_witness :
  exists s,
    script insatiable boot = (Return RanOut, s) /\
    chat_calls (trace s) = 10.
Proof.
  apply (proj2 (budget_respected insatiable 10) sample_tools).
  - reflexivity.
  - intros i Hi. eexists. split; reflexivity.
  - intros j Hj. reflexivity.
Defined.

(** ** Order of tool invocations *)

(** C3. When the reply of a round carries the requests [calls] and the tool
    service answers the i-th of them with [nth i results], the round sends
    one POST per request, in the order of [calls], each with the name and
    arguments of its request, and appends one [tool] message per request
    after the assistant message, in the same order, the i-th holding the id
    of the i-th request as [tool_call_id] and the i-th result as
    [content]. *)
Theorem tool_calls_run_in_order w tools s m results :
  reply w (chat_calls (trace s)) = Some m ->
  truthy (tool_calls m) = true ->
  length results = length (iter_calls (tool_calls m)) ->
  (forall i, i < length (iter_calls (tool_calls m)) ->
             tool_result w (post_calls (trace s) + i) = Some (nth i results JNull)) ->
  round w tools s =
    (Return Next,
     {| messages :=
          messages s
          ++ Obj m
             :: map (fun cv =>
                       Dict (JObj [("role", JStr "tool");
                                   ("tool_call_id", JStr (call_id (fst cv)));
                                   ("content", snd cv)]))
                  (combine (iter_calls (tool_calls m)) results);
        stdout := stdout s;
        trace :=
          trace s
          ++ ChatCreate "qwen2.5:7b" tools (messages s)
             :: map (fun call =>
                       Post "http://localhost:3000/api/tools/call"
                         (JObj [("name", JStr (fn_name (call_function call)));
                                ("arguments",
                                 JStr (fn_arguments (call_function call)))]))
                  (iter_calls (tool_calls m)) |}).
Proof.
  intros Hm Ht Hlen Hres.
  rewrite (round_reply _ tools _ Hm). cbv zeta. rewrite Ht.
  rewrite (@tool_loop_returns w _ _ results Hlen).
  - cbn [messages stdout trace push log]. now rewrite <- !app_assoc.
  - intros i Hi. cbn [trace push log]. rewrite post_calls_app.
    change (post_calls [ChatCreate ?a ?b ?x]) with 0.
    rewrite Nat.add_0_r. now apply Hres.
Qed.

Lemma tool_calls_run_in_order_witness :
  round insatiable sample_tools (state_after insatiable sample_tools 0) =
    (Return Next,
     {| messages :=
          initial_messages
          ++ [Obj {| content := None;
                     tool_calls := Some [search_call; annotate_call] |};
              Dict (JObj [("role", JStr "tool");
                          ("tool_call_id", JStr "t1");
                          ("content", JInt 0)]);
              Dict (JObj [("role", JStr "tool");
                          ("tool_call_id", JStr "t2");
                          ("content", JInt 1)])];
        stdout := "";
        trace :=
          [Get tools_url;
           ChatCreate "qwen2.5:7b" sample_tools initial_messages;
           Post "http://localhost:3000/api/tools/call"
             (JObj [("name", JStr "search");
                    ("arguments", JStr (fn_arguments (call_function search_call)))]);
           Post "http://localhost:3000/api/tools/call"
             (JObj [("name", JStr "annotate");
                    ("arguments",
                     JStr (fn_arguments (call_function annotate_call)))])] |}).
Proof.
  apply (@tool_calls_run_in_order insatiable sample_tools
           (state_after insatiable sample_tools 0)
           {| content := None; tool_calls := Some [search_call; annotate_call] |}
           [JInt 0; JInt 1]).
  - reflexivity.
  - reflexivity.
  - reflexivity.
  - intros i Hi. simpl in Hi.
    destruct i as [| [| i]]; [reflexivity | reflexivity | lia].
Defined.

(** ** Running out of rounds *)

(** C8. A run that falls out of the loop with the range used up has printed
    nothing, has made exactly max_rounds chat calls, each answered by a
    reply that asked for tools, and exactly the tool invocations those
    replies asked for; nothing follows the last of them. *)
Theorem exhausted_run_is_silent w n s :
  run w n boot = (Return RanOut, s) ->
  stdout s = "" /\
  chat_calls (trace s) = n /\
  post_calls (trace s) = posts_before w n /\
  (forall i, i < n -> asks_tools w i) /\
  exists tools, catalog w = Some tools /\ s = state_after w tools n.
Proof.
  intros Hrun. pose proof (run_cases w n) as H. rewrite Hrun in H.
  cbn [fst snd] in H. inversion H as [| | | | tools Hcat [Hask Hok]]; subst.
  repeat split.
  - apply chat_calls_trace_after.
  - apply post_calls_trace_after.
  - exact Hask.
  - eauto.
Qed.

Lemma exhausted_run_is_silent_witness :
  stdout (snd (script insatiable boot)) = "" /\
  chat_calls (trace (snd (script insatiable boot))) = 10 /\
  post_calls (trace (snd (script insatiable boot))) = posts_before insatiable 10 /\
  (forall i, i < 10 -> asks_tools insatiable i) /\
  exists tools, catalog insatiable = Some tools /\
                snd (script insatiable boot) = state_after insatiable tools 10.
Proof.
  apply (@exhausted_run_is_silent insatiable 10 (snd (script insatiable boot))).
  vm_compute. reflexivity.
Defined.

(** ** Rules for the two loop bodies *)

Section BodyRules.

Variable w : World.

Lemma wp_tool_step c Q E s :
  (forall e, tool_failure w (post_calls (trace s)) = Some e ->
             E e (log (post_event c) s)) ->
  (forall v, tool_result w (post_calls (trace s)) = Some v ->
             Q tt (push (tool_message c v) (log (post_event c) s))) ->
  wp (tool_step w c) Q E s.
Proof.
  intros Hfail Hok. unfold wp.
  destruct (tool_outcome w (post_calls (trace s))) as [[v [Hv _]] | [e [He _]]].
  - rewrite (tool_step_result _ c s Hv). now apply Hok.
  - rewrite (tool_step_failure _ c s He). now apply Hfail.
Qed.

Lemma wp_round tools Q E s :
  (forall e, chat_failure w (chat_calls (trace s)) = Some e ->
             E e (log (ChatCreate model_name tools (messages s)) s)) ->
  (forall m, reply w (chat_calls (trace s)) = Some m ->
             let s1 := push (Obj m) (log (ChatCreate model_name tools (messages s)) s) in
             if truthy (tool_calls m)
             then wp (tool_loop w (iter_calls (tool_calls m))) (fun _ => Q Next) E s1
             else Q Break (write (py_str (content m) ++ newline) s1)) ->
  wp (round w tools) Q E s.
Proof.
  intros Hfail Hok. unfold wp at 1.
  destruct (chat_outcome w (chat_calls (trace s))) as [[m [Hm _]] | [e [He _]]].
  - rewrite (round_reply _ tools _ Hm). specialize (Hok m Hm).
    cbv zeta in *. destruct (truthy (tool_calls m)); [| exact Hok].
    unfold wp in Hok. now destruct (tool_loop w _ _) as [[u | e] s2].
  - rewrite (round_chat_failure _ tools _ He). now apply Hfail.
Qed.

End BodyRules.

(** ** The transcript only grows *)

Lemma snapshots_app tr tr' : snapshots (tr ++ tr') = snapshots tr ++ snapshots tr'.
Proof.
  induction tr as [| e tr IH]; [reflexivity |].
  destruct e; simpl; now rewrite IH.
Qed.

Lemma growing_grow l : forall a ext,
  growing (l ++ [a]) -> growing (l ++ [a ++ ext]).
Proof.
  induction l as [| x l IH]; intros a ext H; [simpl; auto |].
  simpl in *. destruct H as [Hx Hl]. split; [| now apply IH].
  destruct l as [| y l]; simpl in *; [| assumption].
  destruct Hx as [e ->]. exists (e ++ ext). now rewrite app_assoc.
Qed.

Lemma growing_repeat l : forall a,
  growing (l ++ [a]) -> growing ((l ++ [a]) ++ [a]).
Proof.
  induction l as [| x l IH]; intros a H.
  - simpl. repeat split. exists []. now rewrite app_nil_r.
  - simpl in *. destruct H as [Hx Hl]. split; [| now apply IH].
    destruct l as [| y l]; simpl in *; assumption.
Qed.

Lemma extends_push ms0 s m :
  extends ms0 s -> appended m -> extends ms0 (push m s).
Proof.
  intros [ext [Hms Hext]] Hm. exists (ext ++ [m]). split.
  - simpl. now rewrite Hms, app_assoc.
  - apply Forall_app. auto.
Qed.

Lemma extends_refl (s : State) : extends (messages s) s.
Proof. exists []. split; [now rewrite app_nil_r | constructor]. Qed.

Lemma history_log_chat pre s model tools :
  growing (pre ++ history s) ->
  growing (pre ++ history (log (ChatCreate model tools (messages s)) s)).
Proof.
  unfold history. cbn [trace messages log]. rewrite snapshots_app. simpl.
  rewrite !app_assoc. apply growing_repeat.
Qed.

Lemma history_log_post pre s c :
  growing (pre ++ history s) -> growing (pre ++ history (log (post_event c) s)).
Proof.
  unfold history. cbn [trace messages log]. rewrite snapshots_app. simpl.
  now rewrite app_nil_r.
Qed.

Lemma history_push pre s m :
  growing (pre ++ history s) -> growing (pre ++ history (push m s)).
Proof.
  unfold history. cbn [trace messages push]. rewrite !app_assoc. apply growing_grow.
Qed.

(** A property of the state that survives a logged request, an appended
    assistant or tool message and a printed line survives both loops,
    however they end. *)
Section Preserved.

Variable w : World.
Variable Inv : State -> Prop.

Hypothesis Inv_post : forall s c, Inv s -> Inv (log (post_event c) s).
Hypothesis Inv_chat : forall s model tools,
    Inv s -> Inv (log (ChatCreate model tools (messages s)) s).
Hypothesis Inv_push : forall s m, Inv s -> appended m -> Inv (push m s).
Hypothesis Inv_write : forall s t, Inv s -> Inv (write t s).

Lemma tool_loop_keeps cs :
  hoare Inv (tool_loop w cs) (fun _ => Inv) (fun _ => Inv).
Proof.
  apply (@hoare_tool_loop w (fun _ => Inv)).
  intros c rest s Hs. apply wp_tool_step.
  - intros e _. now apply Inv_post.
  - intros v _. apply Inv_push; [now apply Inv_post |].
    right. now exists (call_id c), v.
Qed.

Lemma round_keeps tools :
  hoare Inv (round w tools) (fun _ => Inv) (fun _ => Inv).
Proof.
  intros s Hs. apply wp_round.
  - intros e _. now apply Inv_chat.
  - intros m _. cbv zeta.
    assert (Hk : Inv (push (Obj m) (log (ChatCreate model_name tools (messages s)) s))).
    { apply Inv_push; [now apply Inv_chat |]. left. now exists m. }
    destruct (truthy (tool_calls m)).
    + apply tool_loop_keeps, Hk.
    + now apply Inv_write.
Qed.

Lemma agent_loop_keeps tools n :
  hoare Inv (agent_loop w tools n) (fun _ => Inv) (fun _ => Inv).
Proof.
  apply (@hoare_agent_loop w (fun _ => Inv)); [| auto].
  intros k s Hs. eapply wp_mono; [apply round_keeps, Hs | | auto].
  intros [|] s' H; exact H.
Qed.

End Preserved.

Lemma wp_snd {A} (m : M A) (P : State -> Prop) s :
  wp m (fun _ => P) (fun _ => P) s -> P (snd (m s)).
Proof. unfold wp. now destruct (m s) as [[a | e] s']. Qed.

Section AppendOnly.

Variable w : World.
Variable ms0 : list Message.

Lemma extends_kept {A} (m : M A) :
  (forall Inv : State -> Prop,
      (forall s c, Inv s -> Inv (log (post_event c) s)) ->
      (forall s model tools, Inv s -> Inv (log (ChatCreate model tools (messages s)) s)) ->
      (forall s x, Inv s -> appended x -> Inv (push x s)) ->
      (forall s t, Inv s -> Inv (write t s)) ->
      hoare Inv m (fun _ => Inv) (fun _ => Inv)) ->
  forall s, extends ms0 s -> extends ms0 (snd (m s)).
Proof.
  intros Hm s Hs. apply wp_snd. apply (Hm (extends ms0)); auto.
  intros s' x. apply extends_push.
Qed.

Lemma growing_kept {A} (m : M A) pre :
  (forall Inv : State -> Prop,
      (forall s c, Inv s -> Inv (log (post_event c) s)) ->
      (forall s model tools, Inv s -> Inv (log (ChatCreate model tools (messages s)) s)) ->
      (forall s x, Inv s -> appended x -> Inv (push x s)) ->
      (forall s t, Inv s -> Inv (write t s)) ->
      hoare Inv m (fun _ => Inv) (fun _ => Inv)) ->
  forall s, growing (pre ++ history s) -> growing (pre ++ history (snd (m s))).
Proof.
  intros Hm s Hs. apply wp_snd.
  apply (Hm (fun s => growing (pre ++ history s))); auto.
  - intros s' c. apply history_log_post.
  - intros s' model tools. apply history_log_chat.
  - intros s' x H _. now apply history_push.
Qed.

End AppendOnly.

Section Opening.

Variable w : World.

Lemma snapshots_trace_after tools c :
  exists rest, snapshots (trace_after w tools (S c)) = opening :: rest.
Proof.
  induction c as [| c [rest IH]].
  - eexists. reflexivity.
  - change (trace_after w tools (S (S c)))
      with (trace_after w tools (S c)
            ++ ChatCreate model_name tools (transcript_after w (S c))
               :: map post_event (requested w (S c))).
    rewrite snapshots_app, IH. eexists. reflexivity.
Qed.

(** The first transcript on record, shown to the chat service or, when no
    chat call was made, left at the end, is the opening pair. *)
Lemma history_outcome n r s tools :
  run_outcome w n r s -> catalog w = Some tools ->
  exists rest, history s = opening :: rest.
Proof.
  intros H Hcat. unfold history.
  destruct H as [e He | t c e Ht | t c m Ht | t c m done call rest e Ht | t Ht];
    cbn [trace messages log state_after boot].
  - destruct (fetch_outcome w) as [[t' [_ Hf]] | [e' [_ Hc]]]; congruence.
  - destruct c as [| c]; [eexists; reflexivity |].
    destruct (snapshots_trace_after t c) as [tl Htl].
    rewrite snapshots_app, Htl. eexists. reflexivity.
  - destruct c as [| c]; [eexists; reflexivity |].
    destruct (snapshots_trace_after t c) as [tl Htl].
    rewrite snapshots_app, Htl. eexists. reflexivity.
  - destruct c as [| c]; [eexists; reflexivity |].
    destruct (snapshots_trace_after t c) as [tl Htl].
    rewrite snapshots_app, Htl. eexists. reflexivity.
  - destruct n as [| n]; [eexists; reflexivity |].
    destruct (snapshots_trace_after t n) as [tl Htl].
    rewrite Htl. eexists. reflexivity.
Qed.

End Opening.

(** C6. Once the catalog is fetched, [messages] is set to exactly the system
    message and the user message of lines 11-24: the first transcript on
    record (the one shown to the first chat call or, if no chat call is made,
    the final one) is that pair.  From then on the run only appends: every
    transcript on record is the one before it with messages added at the
    end, and the final one is the pair followed only by message objects of
    chat replies and [tool] dicts, so the system message stays first and the
    user message second and neither occurs again.  From whatever state they
    start, the inner loop, one round and the outer loop leave the messages
    they found in place and add only such messages after them. *)
Theorem transcript_is_append_only w n tools :
  catalog w = Some tools ->
  (exists rest,
      history (snd (run w n boot)) =
      [Dict (JObj [("role", JStr "system");
                   ("content",
                    JStr "You are a musicology research assistant. Use the available tools to analyse the corpus. When you find a relevant passage, write an annotation with a concise tag.")]);
       Dict (JObj [("role", JStr "user");
                   ("content",
                    JStr "Search the corpus for uses of the word 'sublime' and annotate the three most significant passages.")])]
      :: rest) /\
  growing (history (snd (run w n boot))) /\
  (exists ext,
      messages (snd (run w n boot)) =
      [Dict (JObj [("role", JStr "system");
                   ("content",
                    JStr "You are a musicology research assistant. Use the available tools to analyse the corpus. When you find a relevant passage, write an annotation with a concise tag.")]);
       Dict (JObj [("role", JStr "user");
                   ("content",
                    JStr "Search the corpus for uses of the word 'sublime' and annotate the three most significant passages.")])]
      ++ ext /\
      Forall (fun m =>
                (exists o, m = Obj o) \/
                (exists id result,
                    m = Dict (JObj [("role", JStr "tool");
                                    ("tool_call_id", JStr id);
                                    ("content", result)])))
             ext) /\
  (forall s calls, extends (messages s) (snd (tool_loop w calls s))) /\
  (forall s, extends (messages s) (snd (round w tools s))) /\
  (forall s rounds, extends (messages s) (snd (agent_loop w tools rounds s))).
Proof.
  intros Hcat.
  split; [apply (history_outcome (run_cases w n) Hcat) |].
  rewrite (run_fetched _ n Hcat).
  split; [| split; [| split; [| split]]].
  - apply (@growing_kept _ _ []); [intros; now apply agent_loop_keeps |].
    simpl. auto.
  - apply (@extends_kept opening);
      [intros; now apply agent_loop_keeps |].
    apply (extends_refl (state_after w tools 0)).
  - intros s calls. apply extends_kept; [intros; now apply tool_loop_keeps |].
    apply extends_refl.
  - intros s. apply extends_kept; [intros; now apply round_keeps |].
    apply extends_refl.
  - intros s rounds. apply extends_kept; [intros; now apply agent_loop_keeps |].
    apply extends_refl.
Qed.

Lemma transcript_is_append_only_witness :
  (exists rest, history (snd (script scenario boot)) = opening :: rest) /\
  growing (history (snd (script scenario boot))) /\
  extends opening (snd (script scenario boot)) /\
  (forall s calls, extends (messages s) (snd (tool_loop scenario calls s))) /\
  (forall s, extends (messages s) (snd (round scenario sample_tools s))) /\
  (forall s rounds,
      extends (messages s) (snd (agent_loop scenario sample_tools rounds s))).
Proof.
  apply (@transcript_is_append_only scenario 10 sample_tools).
  reflexivity.
Defined.

(** ** What is sent, and when *)

Section Requests.

Variable w : World.

Lemma advances_prev c : advances w (S c) -> advances w c.
Proof.
  intros [Hask Hok]. split.
  - intros i Hi. apply Hask. lia.
  - intros j Hj. apply Hok. simpl. lia.
Qed.

Lemma posts_sound n i calls :
  i < n -> (forall call, In call calls -> In call (requested w i)) ->
  Forall (sound_event w n) (map post_event calls).
Proof.
  intros Hi Hin. apply Forall_forall. intros e He.
  apply in_map_iff in He. destruct He as [call [<- Hcall]].
  simpl. split; [reflexivity |]. exists i, call. auto.
Qed.

Lemma chat_sound tools n c :
  catalog w = Some tools -> c < n -> advances w c ->
  sound_event w n (ChatCreate model_name tools (transcript_after w c)).
Proof.
  intros Hcat Hc Hadv. simpl. split; [reflexivity |]. split; [exact Hcat |].
  exists c. auto.
Qed.

Lemma trace_after_sound tools n c :
  catalog w = Some tools -> advances w c -> c <= n ->
  Forall (sound_event w n) (trace_after w tools c).
Proof.
  intros Hcat. induction c as [| c IH]; intros Hadv Hc.
  - repeat constructor.
  - simpl. apply Forall_app. split; [apply IH; [now apply advances_prev | lia] |].
    constructor.
    + apply chat_sound; auto using advances_prev.
    + apply posts_sound with (i := c); auto.
Qed.

Lemma outcome_sound n r s :
  run_outcome w n r s -> Forall (sound_event w n) (trace s).
Proof.
  intros H. destruct H; cbn [trace log state_after boot].
  - repeat constructor.
  - apply Forall_app. split; [apply trace_after_sound; auto; lia |].
    constructor; [now apply chat_sound | constructor].
  - apply Forall_app. split; [apply trace_after_sound; auto; lia |].
    constructor; [now apply chat_sound | constructor].
  - apply Forall_app. split; [apply trace_after_sound; auto; lia |].
    constructor.
    + now apply chat_sound.
    + apply posts_sound with (i := c); auto.
      intros x Hx. unfold requested.
      match goal with Hm : reply w c = Some _ |- _ => rewrite Hm end.
      match goal with Hd : iter_calls _ = _ |- _ => rewrite Hd end.
      apply in_app_or in Hx. apply in_or_app.
      destruct Hx as [Hx | [<- | []]]; [now left | right; now left].
  - apply trace_after_sound; auto.
Qed.

Lemma run_sound n : Forall (sound_event w n) (trace (snd (run w n boot))).
Proof. apply (outcome_sound (run_cases w n)). Qed.

Lemma gets_posts calls : filter is_get (map post_event calls) = [].
Proof. induction calls; auto. Qed.

Lemma trace_after_head tools c :
  exists rest, trace_after w tools c = Get tools_url :: rest /\ filter is_get rest = [].
Proof.
  induction c as [| c [rest [IH Hrest]]].
  - exists []. auto.
  - simpl. rewrite IH. eexists. split; [reflexivity |].
    rewrite filter_app, Hrest. simpl. apply gets_posts.
Qed.

Lemma outcome_head n r s :
  run_outcome w n r s ->
  exists rest, trace s = Get tools_url :: rest /\ filter is_get rest = [].
Proof.
  intros H. destruct H; cbn [trace log state_after boot];
    try (destruct (trace_after_head tools c) as [tl [-> Hrest]]).
  - exists []. auto.
  - eexists. split; [reflexivity |]. rewrite filter_app, Hrest. reflexivity.
  - eexists. split; [reflexivity |]. rewrite filter_app, Hrest. reflexivity.
  - eexists. split; [reflexivity |]. rewrite filter_app, Hrest. simpl. apply gets_posts.
  - apply trace_after_head.
Qed.

Lemma transcript_after_whole c : advances w c -> whole_turns (transcript_after w c).
Proof.
  induction c as [| c IH]; intros Hadv; [constructor |].
  pose proof Hadv as [Hask _]. destruct (Hask c) as [m [Hm Ht]]; [lia |].
  simpl. unfold requested. rewrite Hm.
  constructor; auto using advances_prev, length_results_from.
Qed.

Lemma results_for_tool_messages calls : forall p,
  (forall i, i < length calls -> tool_failure w (p + i) = None) ->
  results_for w p calls (tool_messages calls (results_from w p (length calls))).
Proof.
  induction calls as [| call rest IH]; intros p Hok; [constructor |].
  destruct (tool_outcome w p) as [[v [Hv _]] | [e [He _]]].
  - change (tool_messages (call :: rest) (results_from w p (length (call :: rest))))
      with (tool_message call (or_null (tool_result w p))
            :: tool_messages rest (results_from w (S p) (length rest))).
    rewrite Hv. apply results_next; [exact Hv |]. apply IH.
    intros i Hi. replace (S p + i) with (p + S i) by lia. apply Hok. simpl. lia.
  - specialize (Hok 0). rewrite Nat.add_0_r in Hok.
    rewrite Hok in He by (simpl; lia). discriminate.
Qed.


End Requests.

(** C5. The catalog is fetched by the first request of the run and by no
    other; every chat call of the run is given that catalog, as fetched. *)
Theorem catalog_is_fixed w n :
  (exists rest, trace (snd (run w n boot)) = Get tools_url :: rest /\
                forall url, ~ In (Get url) rest) /\
  (forall model tools msgs,
      In (ChatCreate model tools msgs) (trace (snd (run w n boot))) ->
      catalog w = Some tools).
Proof.
  split.
  - destruct (outcome_head (run_cases w n)) as [rest [Htr Hrest]].
    exists rest. split; [exact Htr |]. intros url Hin.
    assert (H : In (Get url) (filter is_get rest)) by (apply filter_In; auto).
    rewrite Hrest in H. exact H.
  - intros model tools msgs Hin.
    pose proof (run_sound w n) as H. rewrite Forall_forall in H.
    apply H in Hin. apply Hin.
Qed.

Lemma catalog_is_fixed_witness : catalog scenario = Some sample_tools.
Proof.
  apply (proj2 (catalog_is_fixed scenario 10) model_name sample_tools initial_messages).
  vm_compute. right. left. reflexivity.
Defined.



(** ** A tool invocation that fails *)

Section Failure.

Variable w : World.

Lemma tool_message_count_app ms ms' :
  tool_message_count (ms ++ ms') = tool_message_count ms + tool_message_count ms'.
Proof. unfold tool_message_count. now rewrite filter_app, length_app. Qed.

Lemma tool_message_count_results calls : forall results,
  length results = length calls ->
  tool_message_count (tool_messages calls results) = length calls.
Proof.
  induction calls as [| c calls IH]; intros [| v results] Hlen;
    try discriminate; [reflexivity |].
  change (tool_messages (c :: calls) (v :: results))
    with (tool_message c v :: tool_messages calls results).
  change (tool_message_count (tool_message c v :: ?l))
    with (S (tool_message_count l)).
  simpl. f_equal. apply IH. simpl in Hlen. lia.
Qed.

Lemma tool_message_count_after c :
  advances w c -> tool_message_count (transcript_after w c) = posts_before w c.
Proof.
  induction c as [| c IH]; intros Hadv; [reflexivity |].
  pose proof Hadv as [Hask _]. destruct (Hask c) as [m [Hm _]]; [lia |].
  simpl. rewrite Hm, tool_message_count_app, IH by now apply advances_prev.
  change (tool_message_count (Obj m :: ?l)) with (tool_message_count l).
  now rewrite tool_message_count_results by apply length_results_from.
Qed.

Lemma post_calls_outcome n r s :
  run_outcome w n r s ->
  (forall j, j < post_calls (trace s) -> tool_failure w j = None) \/
  exists j e tr call,
    tool_failure w j = Some e /\
    (forall j', j' < j -> tool_failure w j' = None) /\
    r = Raise e /\
    post_calls (trace s) = S j /\
    trace s = tr ++ [post_event call] /\
    stdout s = "" /\
    tool_message_count (messages s) = j.
Proof.
  intros H. destruct H; cbn [trace messages stdout log state_after boot].
  - left. intros j Hj. change (post_calls ([] ++ [Get tools_url])) with 0 in Hj. lia.
  - left. intros j Hj. rewrite post_calls_app, post_calls_trace_after in Hj.
    change (post_calls [ChatCreate ?a ?b ?x]) with 0 in Hj.
    apply H1. lia.
  - left. intros j Hj. rewrite post_calls_app, post_calls_trace_after in Hj.
    change (post_calls [ChatCreate ?a ?b ?x]) with 0 in Hj.
    apply H1. lia.
  - right. exists (posts_before w c + length done), e.
    exists (trace_after w tools c
            ++ ChatCreate model_name tools (transcript_after w c)
               :: map post_event done), call.
    split; [assumption |]. split.
    { intros j' Hj'.
      destruct (Nat.lt_ge_cases j' (posts_before w c)) as [Hlt | Hge];
        [now apply H1 |].
      replace j' with (posts_before w c + (j' - posts_before w c)) by lia.
      apply H5. lia. }
    split; [reflexivity |]. split.
    { rewrite post_calls_app, post_calls_trace_after.
      change (post_calls (ChatCreate ?a ?b ?x :: ?l)) with (post_calls l).
      rewrite post_calls_posts, length_app. simpl. lia. }
    split.
    { rewrite map_app, <- app_assoc. simpl. reflexivity. }
    split; [reflexivity |].
    rewrite tool_message_count_app, tool_message_count_after by assumption.
    change (tool_message_count (Obj m :: ?l)) with (tool_message_count l).
    now rewrite tool_message_count_results by apply length_results_from.
  - left. intros j Hj. rewrite post_calls_trace_after in Hj. now apply H0.
Qed.

End Failure.

(** C4, as the script behaves.  A tool invocation whose response is an
    object with a [result] entry becomes a [tool] message holding that entry,
    and the inner loop goes on with the next request.  A tool invocation
    that raises, or whose response has no [result] entry, ends the run with
    that exception: its POST is the last request of the run, the transcript
    holds only the [tool] messages of the invocations before it, and nothing
    is printed. *)
Theorem failed_tool_call_ends_run w n :
  (forall call rest s v,
      tool_result w (post_calls (trace s)) = Some v ->
      tool_loop w (call :: rest) s =
      tool_loop w rest
        (push (Dict (JObj [("role", JStr "tool");
                           ("tool_call_id", JStr (call_id call));
                           ("content", v)]))
           (log (Post "http://localhost:3000/api/tools/call"
                   (JObj [("name", JStr (fn_name (call_function call)));
                          ("arguments",
                           JStr (fn_arguments (call_function call)))]))
              s))) /\
  (forall j e,
      j < post_calls (trace (snd (run w n boot))) ->
      tool_failure w j = Some e ->
      fst (run w n boot) = Raise e /\
      post_calls (trace (snd (run w n boot))) = S j /\
      (exists tr call, trace (snd (run w n boot)) = tr ++ [post_event call]) /\
      stdout (snd (run w n boot)) = "" /\
      tool_message_count (messages (snd (run w n boot))) = j).
Proof.
  split.
  - intros call rest s v Hv. simpl. unfold bind.
    now rewrite (tool_step_result _ call s Hv).
  - intros j e Hj He.
    destruct (post_calls_outcome (run_cases w n))
      as [Hall | [j0 [e0 [tr [call [He0 [Hbefore [Hr [Hposts [Htr [Hout Hcount]]]]]]]]]]].
    + rewrite Hall in He by assumption. discriminate.
    + assert (Heq : j = j0).
      { destruct (Nat.lt_trichotomy j j0) as [Hlt | [Heq | Hgt]]; [| assumption | lia].
        rewrite Hbefore in He by assumption. discriminate. }
      rewrite <- Heq in He0, Hposts, Hcount.
      assert (e0 = e) by congruence. subst e0.
      split; [exact Hr |]. split; [exact Hposts |].
      split; [now exists tr, call |]. split; [exact Hout | exact Hcount].
Qed.

Lemma failed_tool_call_ends_run_witness :
  fst (script unknown_tool boot) = Raise (KeyError "result") /\
  post_calls (trace (snd (script unknown_tool boot))) = 1 /\
  (exists tr call, trace (snd (script unknown_tool boot)) = tr ++ [post_event call]) /\
  stdout (snd (script unknown_tool boot)) = "" /\
  tool_message_count (messages (snd (script unknown_tool boot))) = 0.
Proof.
  apply (proj2 (failed_tool_call_ends_run unknown_tool 10) 0 (KeyError "result")).
  - vm_compute. lia.
  - reflexivity.
Defined.

(** C4, as stated, fails: the tool service answers the first of two
    requests with an error document; the run raises [KeyError], appends no
    [tool] message, does not invoke the second request and starts no second
    round. *)
Lemma failed_tool_call_is_not_folded :
  tool_failure unknown_tool 0 = Some (KeyError "result") /\
  script unknown_tool boot =
    (Raise (KeyError "result"),
     {| messages :=
          [system_message; user_message;
           Obj {| content := None;
                  tool_calls := Some [search_call; annotate_call] |}];
        stdout := "";
        trace := [Get tools_url;
                  ChatCreate model_name sample_tools [system_message; user_message];
                  post_event search_call] |}).
Proof. split; reflexivity. Qed.

(** ** The run is a function of what the collaborators answer *)

Section Determinism.

Variables w1 w2 : World.
Variable toolset : Json.

Hypothesis fetched1 : catalog w1 = Some toolset.
Hypothesis fetched2 : catalog w2 = Some toolset.

Lemma agree_prefix tr ext : agree w1 w2 (tr ++ ext) -> agree w1 w2 tr.
Proof.
  intros [Hc Hp]. split.
  - intros i Hi. apply Hc. rewrite chat_calls_app. lia.
  - intros j Hj. apply Hp. rewrite post_calls_app. lia.
Qed.

Lemma same_bind {A B} (m1 m2 : M A) (f1 f2 : A -> M B) :
  same_run w1 w2 m1 m2 ->
  (forall a, same_run w1 w2 (f1 a) (f2 a)) ->
  same_run w1 w2 (bind m1 f1) (bind m2 f2).
Proof.
  intros Hm Hf s. destruct (Hm s) as [[ext Hext] Hsame]. unfold bind.
  destruct (m1 s) as [[a | e] s1] eqn:H1; cbn [snd] in *.
  - destruct (Hf a s1) as [[ext' Hext'] Hsame']. split.
    + exists (ext ++ ext'). now rewrite Hext', Hext, app_assoc.
    + intros Hag. rewrite Hsame.
      * now apply Hsame'.
      * rewrite Hext' in Hag. now apply agree_prefix in Hag.
  - split; [now exists ext |]. intros Hag. now rewrite Hsame.
Qed.

(** Code that does not talk to the collaborators. *)
Lemma same_local {A} (m : M A) :
  (forall s, exists ext, trace (snd (m s)) = trace s ++ ext) ->
  same_run w1 w2 m m.
Proof. intros H s. split; [apply H | reflexivity]. Qed.

Lemma same_quiet {A} (m : M A) :
  (forall s, trace (snd (m s)) = trace s) -> same_run w1 w2 m m.
Proof.
  intros H. apply same_local. intros s. exists []. now rewrite H, app_nil_r.
Qed.

Lemma same_create model tools msgs :
  same_run w1 w2 (create w1 model tools msgs) (create w2 model tools msgs).
Proof.
  intros s. unfold create. cbn [snd trace log]. split; [eauto |].
  intros [Hc _]. rewrite (Hc (chat_calls (trace s))); [reflexivity |].
  rewrite chat_calls_app. change (chat_calls [ChatCreate ?a ?b ?x]) with 1. lia.
Qed.

Lemma same_post url payload :
  same_run w1 w2 (requests_post w1 url payload) (requests_post w2 url payload).
Proof.
  intros s. unfold requests_post. cbn [snd trace log]. split; [eauto |].
  intros [_ Hp]. rewrite (Hp (post_calls (trace s))); [reflexivity |].
  rewrite post_calls_app. change (post_calls [Post ?a ?b]) with 1. lia.
Qed.

Lemma same_tool_step call : same_run w1 w2 (tool_step w1 call) (tool_step w2 call).
Proof.
  unfold tool_step. apply same_bind; [apply same_post |]. intros result.
  apply same_bind; [now apply same_quiet |]. intros c.
  now apply same_quiet.
Qed.

Lemma same_tool_loop calls : same_run w1 w2 (tool_loop w1 calls) (tool_loop w2 calls).
Proof.
  induction calls as [| c calls IH]; simpl.
  - now apply same_quiet.
  - apply same_bind; [apply same_tool_step | intros u; exact IH].
Qed.

Lemma same_round t : same_run w1 w2 (round w1 t) (round w2 t).
Proof.
  unfold round. apply same_bind; [now apply same_quiet |]. intros msgs.
  apply same_bind; [apply same_create |]. intros response.
  apply same_bind; [now apply same_quiet |]. intros choice. cbv zeta.
  apply same_bind; [now apply same_quiet |]. intros u.
  destruct (negb (truthy (tool_calls (message choice)))).
  - apply same_bind; [now apply same_quiet |]. intros u'. now apply same_quiet.
  - apply same_bind; [apply same_tool_loop |]. intros u'. now apply same_quiet.
Qed.

Lemma same_agent_loop t n :
  same_run w1 w2 (agent_loop w1 t n) (agent_loop w2 t n).
Proof.
  induction n as [| n IH]; simpl.
  - now apply same_quiet.
  - apply same_bind; [apply same_round |]. intros [|]; [exact IH |].
    now apply same_quiet.
Qed.

Lemma fetch_tools_fetched w s :
  catalog w = Some toolset ->
  fetch_tools w s = (Return toolset, log (Get tools_url) s).
Proof.
  unfold catalog, fetch_tools, requests_get, bind, emit, lift. intros H.
  destruct (get_json w) as [body | e]; [| discriminate].
  destruct (subscript body "tools") as [t | e]; [| discriminate].
  now inversion H.
Qed.

Lemma same_fetch_tools : same_run w1 w2 (fetch_tools w1) (fetch_tools w2).
Proof.
  intros s. rewrite !fetch_tools_fetched by assumption.
  split; [cbn; eauto | reflexivity].
Qed.

Lemma same_script n : same_run w1 w2 (run w1 n) (run w2 n).
Proof.
  unfold run. apply same_bind; [apply same_fetch_tools |]. intros t.
  apply same_bind; [now apply same_quiet |]. intros u. apply same_agent_loop.
Qed.

End Determinism.

(** C10. Two runs that fetch the same catalog and whose collaborators give
    the same answers to the chat calls and tool invocations that the first
    run makes end alike: same exit or exception, same final transcript, same
    printed text, same requests sent. *)
Theorem run_is_deterministic w1 w2 n tools :
  catalog w1 = Some tools ->
  catalog w2 = Some tools ->
  (forall i, i < chat_calls (trace (snd (run w1 n boot))) ->
             chat_create w1 i = chat_create w2 i) ->
  (forall j, j < post_calls (trace (snd (run w1 n boot))) ->
             post_json w1 j = post_json w2 j) ->
  run w2 n boot = run w1 n boot.
Proof.
  intros Hcat1 Hcat2 Hchat Hpost.
  apply (@same_script w1 w2 tools Hcat1 Hcat2 n boot). now split.
Qed.

Lemma run_is_deterministic_witness :
  script scenario_later boot = script scenario boot.
Proof.
  apply (@run_is_deterministic scenario scenario_later 10 sample_tools).
  - reflexivity.
  - reflexivity.
  - intros i Hi. vm_compute in Hi.
    destruct i as [| [| i]]; [reflexivity | reflexivity | lia].
  - intros j Hj. vm_compute in Hj.
    destruct j as [| j]; [reflexivity | lia].
Defined.

(** ** Further properties of the script *)

(** *** The catalog fetch *)

(** X1. When the catalog fetch of line 9 fails, the run ends there with the
    exception of the fetch, whatever the round bound: a transport or decoding
    error as raised, [KeyError] for a document without a [tools] entry,
    [TypeError] for a document that is not an object.  The GET is the only
    request sent, [messages] is never assigned and nothing is printed. *)
Theorem fetch_failure_ends_run w n :
  (forall e, get_json w = Raise e ->
             run w n boot = (Raise e, log (Get tools_url) boot)) /\
  (forall pairs, get_json w = Return (JObj pairs) ->
                 dict_get pairs "tools" = None ->
                 run w n boot = (Raise (KeyError "tools"), log (Get tools_url) boot)) /\
  (forall body, get_json w = Return body ->
                (forall pairs, body <> JObj pairs) ->
                run w n boot = (Raise TypeError, log (Get tools_url) boot)).
Proof.
  split; [| split].
  - intros e H. apply run_fetch_failure. unfold fetch_failure. now rewrite H.
  - intros pairs H Hnone. apply run_fetch_failure. unfold fetch_failure.
    rewrite H. simpl. now rewrite Hnone.
  - intros body H Hbody. apply run_fetch_failure. unfold fetch_failure.
    rewrite H. destruct body; try reflexivity. now destruct (Hbody pairs).
Qed.

Lemma fetch_failure_ends_run_witness :
  script no_catalog boot = (Raise (KeyError "tools"), log (Get tools_url) boot).
Proof.
  apply (proj1 (proj2 (fetch_failure_ends_run no_catalog 10))
           [("error", JStr "registry offline")]); reflexivity.
Defined.

(** *** A chat call that fails *)

Section ChatFailure.

Variable w : World.

Lemma reply_no_failure i m : reply w i = Some m -> chat_failure w i = None.
Proof.
  intros H. destruct (chat_outcome w i) as [[m' [_ Hm']] | [e [_ He]]];
    [assumption | congruence].
Qed.

Lemma asks_no_failure i : asks_tools w i -> chat_failure w i = None.
Proof. intros [m [Hm _]]. now apply reply_no_failure with m. Qed.

Lemma chat_failures_outcome n r s :
  run_outcome w n r s ->
  (forall i, i < chat_calls (trace s) -> chat_failure w i = None) \/
  exists i e tr tools,
    chat_failure w i = Some e /\
    (forall i', i' < i -> chat_failure w i' = None) /\
    r = Raise e /\
    chat_calls (trace s) = S i /\
    trace s = tr ++ [ChatCreate model_name tools (messages s)] /\
    stdout s = "" /\
    whole_turns (messages s).
Proof.
  intros H. destruct H; cbn [trace messages stdout log state_after boot].
  - left. intros i Hi. change (chat_calls ([] ++ [Get tools_url])) with 0 in Hi. lia.
  - right. exists c, e, (trace_after w tools c), tools.
    split; [assumption |]. split.
    { intros i' Hi'. apply asks_no_failure. now apply H1. }
    split; [reflexivity |]. split.
    { rewrite chat_calls_app, chat_calls_trace_after.
      change (chat_calls [ChatCreate ?a ?b ?x]) with 1. lia. }
    split; [reflexivity |]. split; [reflexivity |].
    now apply transcript_after_whole.
  - left. intros i Hi. rewrite chat_calls_app, chat_calls_trace_after in Hi.
    change (chat_calls [ChatCreate ?a ?b ?x]) with 1 in Hi.
    destruct (Nat.eq_dec i c) as [-> | Hne].
    + now apply reply_no_failure with m.
    + apply asks_no_failure, H1. lia.
  - left. intros i Hi. rewrite chat_calls_app, chat_calls_trace_after in Hi.
    change (chat_calls (ChatCreate ?a ?b ?x :: ?l)) with (S (chat_calls l)) in Hi.
    rewrite chat_calls_posts in Hi.
    destruct (Nat.eq_dec i c) as [-> | Hne].
    + now apply reply_no_failure with m.
    + apply asks_no_failure, H1. lia.
  - left. intros i Hi. rewrite chat_calls_trace_after in Hi.
    apply asks_no_failure. now apply H0.
Qed.

End ChatFailure.

(** X2. A chat call that raises, or whose response has an empty [choices]
    list, ends the run with that exception.  It is the last request of the
    run; no message is appended after the transcript it was shown, which
    consists of whole turns; nothing is printed. *)
Theorem failed_chat_call_ends_run w n i e :
  i < chat_calls (trace (snd (run w n boot))) ->
  chat_failure w i = Some e ->
  fst (run w n boot) = Raise e /\
  chat_calls (trace (snd (run w n boot))) = S i /\
  (exists tr tools,
      trace (snd (run w n boot)) =
      tr ++ [ChatCreate model_name tools (messages (snd (run w n boot)))]) /\
  stdout (snd (run w n boot)) = "" /\
  whole_turns (messages (snd (run w n boot))).
Proof.
  intros Hi He.
  destruct (chat_failures_outcome (run_cases w n))
    as [Hall | [i0 [e0 [tr [tools [He0 [Hbefore [Hr [Hcalls [Htr [Hout Hwhole]]]]]]]]]]].
  - rewrite Hall in He by assumption. discriminate.
  - assert (Heq : i = i0).
    { destruct (Nat.lt_trichotomy i i0) as [Hlt | [Heq | Hgt]]; [| assumption | lia].
      rewrite Hbefore in He by assumption. discriminate. }
    rewrite <- Heq in He0, Hcalls.
    assert (e0 = e) by congruence. subst e0.
    split; [exact Hr |]. split; [exact Hcalls |].
    split; [now exists tr, tools |]. split; [exact Hout | exact Hwhole].
Qed.

Lemma failed_chat_call_ends_run_witness :
  fst (script no_choices boot) = Raise IndexError /\
  chat_calls (trace (snd (script no_choices boot))) = 2 /\
  (exists tr tools,
      trace (snd (script no_choices boot)) =
      tr ++ [ChatCreate model_name tools (messages (snd (script no_choices boot)))]) /\
  stdout (snd (script no_choices boot)) = "" /\
  whole_turns (messages (snd (script no_choices boot))).
Proof.
  apply (@failed_chat_call_ends_run no_choices 10 1 IndexError).
  - vm_compute. lia.
  - reflexivity.
Defined.

(** *** What is printed *)

Lemma stdout_outcome w n r s :
  run_outcome w n r s ->
  (r = Return Broke /\
   exists ms m, messages s = ms ++ [Obj m] /\ whole_turns ms /\
                truthy (tool_calls m) = false /\
                stdout s = (py_str (content m) ++ newline)%string) \/
  (r <> Return Broke /\ stdout s = "").
Proof.
  intros H. destruct H; cbn [messages stdout log state_after boot];
    try (right; split; [discriminate | reflexivity]).
  left. split; [reflexivity |].
  exists (transcript_after w c), m. auto using transcript_after_whole.
Qed.

(** X3. The script prints at most once.  A run that leaves the loop through
    [break] has printed exactly one line, the [content] of the last message
    of the transcript, which is an assistant message without tool calls
    preceded by whole turns; every other run, however it ends, has printed
    nothing. *)
Theorem prints_only_final_answer w n :
  (fst (run w n boot) = Return Broke ->
   exists ms m,
     messages (snd (run w n boot)) = ms ++ [Obj m] /\
     whole_turns ms /\
     truthy (tool_calls m) = false /\
     stdout (snd (run w n boot)) = (py_str (content m) ++ newline)%string) /\
  (fst (run w n boot) <> Return Broke -> stdout (snd (run w n boot)) = "").
Proof.
  destruct (stdout_outcome (run_cases w n)) as [[Hr Hs] | [Hr Hs]]; split; intros H;
    try assumption; contradiction.
Qed.

Lemma prints_only_final_answer_witness :
  (exists ms m,
      messages (snd (script scenario boot)) = ms ++ [Obj m] /\
      whole_turns ms /\
      truthy (tool_calls m) = false /\
      stdout (snd (script scenario boot)) = (py_str (content m) ++ newline)%string) /\
  stdout (snd (script unknown_tool boot)) = "".
Proof.
  split.
  - apply (proj1 (prints_only_final_answer scenario 10)). reflexivity.
  - apply (proj2 (prints_only_final_answer unknown_tool 10)). discriminate.
Defined.

(** *** The round bound *)

Lemma agent_loop_split w tools n d : forall s,
  agent_loop w tools (n + d) s =
    match agent_loop w tools n s with
    | (Return RanOut, s') => agent_loop w tools d s'
    | other => other
    end.
Proof.
  induction n as [| n IH]; intros s; [reflexivity |].
  simpl. unfold bind. destruct (round w tools s) as [[[|] | e] s1]; auto.
Qed.

(** X5. Running the loop for [n + d] rounds is running it for [n] rounds and,
    only if those used the range up, for [d] more from the state reached.
    Hence a run that ended before its bound was used up, by an answer or by
    an exception, ends in the same way and in the same state under any
    larger bound. *)
Theorem larger_budget_keeps_finished_runs w n d :
  (forall tools s,
      agent_loop w tools (n + d) s =
        match agent_loop w tools n s with
        | (Return RanOut, s') => agent_loop w tools d s'
        | other => other
        end) /\
  (forall r s, run w n boot = (r, s) -> r <> Return RanOut ->
               run w (n + d) boot = (r, s)).
Proof.
  split; [intros tools s; apply agent_loop_split |].
  intros r s Hrun Hr. unfold run, bind in *.
  destruct (fetch_tools w boot) as [[tools | e] s0]; [| exact Hrun].
  destruct (set_messages initial_messages s0) as [[u | e] s1]; [| exact Hrun].
  rewrite agent_loop_split, Hrun.
  destruct r as [[|] | e]; [reflexivity | now destruct Hr | reflexivity].
Qed.

Lemma larger_budget_keeps_finished_runs_witness :
  run scenario (10 + 5) boot = script scenario boot.
Proof.
  apply (proj2 (larger_budget_keeps_finished_runs scenario 10 5)
           (fst (script scenario boot)) (snd (script scenario boot))).
  - reflexivity.
  - discriminate.
Defined.

(** *** Requests and results across the whole run *)

Section WholeRun.

Variable w : World.

Lemma all_requests_S c : all_requests w (S c) = all_requests w c ++ requested w c.
Proof.
  unfold all_requests. rewrite seq_S, flat_map_app. simpl. now rewrite app_nil_r.
Qed.

Lemma length_all_requests c : length (all_requests w c) = posts_before w c.
Proof.
  induction c as [| c IH]; [reflexivity |].
  rewrite all_requests_S, length_app, IH. reflexivity.
Qed.

Lemma filter_posts calls : filter is_post (map post_event calls) = map post_event calls.
Proof. induction calls as [| c calls IH]; simpl; [| rewrite IH]; reflexivity. Qed.

Lemma posts_trace_after tools c :
  filter is_post (trace_after w tools c) = map post_event (all_requests w c).
Proof.
  induction c as [| c IH]; [reflexivity |].
  simpl. rewrite filter_app, IH, all_requests_S, map_app. simpl.
  now rewrite filter_posts.
Qed.

Lemma length_tool_messages calls : forall results,
  length results = length calls ->
  length (tool_messages calls results) = length calls.
Proof.
  unfold tool_messages. intros results H.
  rewrite length_map, length_combine. lia.
Qed.

Lemma plain_reply_requests m :
  truthy (tool_calls m) = false -> iter_calls (tool_calls m) = [].
Proof. destruct (tool_calls m) as [[| c l] |]; simpl; auto; discriminate. Qed.

Lemma failure_no_result j e : tool_failure w j = Some e -> tool_result w j = None.
Proof.
  intros H. destruct (tool_outcome w j) as [[v [_ Hv]] | [e' [_ He']]];
    [congruence | assumption].
Qed.

Lemma results_for_app l1 : forall p t1 l2 t2,
  results_for w p l1 t1 ->
  results_for w (p + length l1) l2 t2 ->
  results_for w p (l1 ++ l2) (t1 ++ t2).
Proof.
  induction l1 as [| call l1 IH]; intros p t1 l2 t2 H1 H2.
  - inversion H1; subst. simpl in *. now rewrite Nat.add_0_r in H2.
  - inversion H1; subst. simpl. apply results_next; [assumption |].
    apply IH; [assumption |]. simpl in H2.
    now replace (S p + length l1) with (p + S (length l1)) by lia.
Qed.

Lemma dicts_tool_messages calls : forall results,
  filter is_dict (tool_messages calls results) = tool_messages calls results.
Proof.
  induction calls as [| c calls IH]; intros [| v results]; try reflexivity.
  change (tool_messages (c :: calls) (v :: results))
    with (tool_message c v :: tool_messages calls results).
  change (filter is_dict (tool_message c v :: ?l))
    with (tool_message c v :: filter is_dict l).
  now rewrite IH.
Qed.

Lemma dicts_transcript_after c :
  advances w c ->
  exists tool_msgs,
    filter is_dict (transcript_after w c) = opening ++ tool_msgs /\
    results_for w 0 (all_requests w c) tool_msgs.
Proof.
  induction c as [| c IH]; intros Hadv.
  - exists []. split; [reflexivity | constructor].
  - destruct (IH (advances_prev Hadv)) as [tms [Hf Hr]].
    pose proof Hadv as [Hask Hok]. destruct (Hask c) as [m [Hm _]]; [lia |].
    exists (tms ++ tool_messages (requested w c)
                     (results_from w (posts_before w c) (length (requested w c)))).
    split.
    + simpl. rewrite Hm, filter_app, Hf.
      change (filter is_dict (Obj m :: ?l)) with (filter is_dict l).
      rewrite dicts_tool_messages, <- app_assoc. reflexivity.
    + rewrite all_requests_S. apply results_for_app; [exact Hr |].
      rewrite length_all_requests. simpl.
      apply results_for_tool_messages. intros i Hi. apply Hok. simpl. lia.
Qed.

Lemma requests_outcome n r s tools :
  run_outcome w n r s -> catalog w = Some tools ->
  exists done pending later tool_msgs,
    all_requests w (chat_calls (trace s)) = done ++ pending ++ later /\
    length pending <= 1 /\
    (forall exit, r = Return exit -> pending = [] /\ later = []) /\
    (pending <> [] -> tool_result w (length done) = None) /\
    filter is_post (trace s) = map post_event (done ++ pending) /\
    filter is_dict (messages s) = opening ++ tool_msgs /\
    results_for w 0 done tool_msgs.
Proof.
  intros H Hcat.
  destruct H as [e He | t c e Ht Hc Hadv Hf | t c m Ht Hc Hadv Hm Hp
                 | t c m done call rest e Ht Hc Hadv Hm Hp Hcalls Hdone Hfail
                 | t Ht Hadv];
    cbn [trace messages log state_after boot].
  - destruct (fetch_outcome w) as [[t' [_ Hf]] | [e' [_ Hc]]]; congruence.
  - destruct (dicts_transcript_after Hadv) as [tms [Hd Hr]].
    exists (all_requests w c), [], (requested w c), tms.
    rewrite chat_calls_app, chat_calls_trace_after.
    change (chat_calls [ChatCreate ?a ?b ?x]) with 1.
    rewrite Nat.add_1_r, all_requests_S, app_nil_r.
    split; [reflexivity |]. split; [simpl; lia |]. split; [discriminate |].
    split; [intros Hne; now destruct Hne |]. split; [| split; assumption].
    rewrite filter_app, posts_trace_after. simpl. now rewrite app_nil_r.
  - destruct (dicts_transcript_after Hadv) as [tms [Hd Hr]].
    exists (all_requests w c), [], (requested w c), tms.
    rewrite chat_calls_app, chat_calls_trace_after.
    change (chat_calls [ChatCreate ?a ?b ?x]) with 1.
    rewrite Nat.add_1_r, all_requests_S, app_nil_r.
    split; [reflexivity |]. split; [simpl; lia |]. split.
    { intros _ _. split; [reflexivity |].
      unfold requested. rewrite Hm. now apply plain_reply_requests. }
    split; [intros Hne; now destruct Hne |]. split; [| split].
    + rewrite filter_app, posts_trace_after. simpl. now rewrite app_nil_r.
    + rewrite filter_app, Hd. simpl. now rewrite app_nil_r.
    + exact Hr.
  - destruct (dicts_transcript_after Hadv) as [tms [Hd Hr]].
    exists (all_requests w c ++ done), [call], rest,
      (tms ++ tool_messages done (results_from w (posts_before w c) (length done))).
    rewrite chat_calls_app, chat_calls_trace_after.
    change (chat_calls (ChatCreate ?a ?b ?x :: ?l)) with (S (chat_calls l)).
    rewrite chat_calls_posts, Nat.add_1_r, all_requests_S.
    split.
    { unfold requested. rewrite Hm, Hcalls. now rewrite <- !app_assoc. }
    split; [simpl; lia |]. split; [discriminate |]. split.
    { intros _. rewrite length_app, length_all_requests.
      now apply failure_no_result with e. }
    split; [| split].
    + rewrite filter_app, posts_trace_after. simpl.
      now rewrite filter_posts, !map_app, <- !app_assoc.
    + rewrite filter_app, Hd.
      change (filter is_dict (Obj m :: ?l)) with (filter is_dict l).
      rewrite dicts_tool_messages, <- app_assoc. reflexivity.
    + apply results_for_app; [exact Hr |]. rewrite length_all_requests. simpl.
      now apply results_for_tool_messages.
  - destruct (dicts_transcript_after Hadv) as [tms [Hd Hr]].
    exists (all_requests w n), [], [], tms.
    rewrite chat_calls_trace_after, !app_nil_r.
    split; [reflexivity |]. split; [simpl; lia |]. split; [auto |].
    split; [intros Hne; now destruct Hne |]. split; [| split; assumption].
    apply posts_trace_after.
Qed.

Lemma trace_after_second tools c :
  exists rest,
    trace_after w tools (S c) =
    Get tools_url :: ChatCreate model_name tools initial_messages :: rest.
Proof.
  induction c as [| c [rest IH]].
  - eexists. reflexivity.
  - change (trace_after w tools (S (S c)))
      with (trace_after w tools (S c)
            ++ ChatCreate model_name tools (transcript_after w (S c))
               :: map post_event (requested w (S c))).
    rewrite IH. eexists. reflexivity.
Qed.

Lemma first_chat_outcome n r s tools :
  run_outcome w n r s ->
  catalog w = Some tools -> 0 < n ->
  exists rest,
    trace s = Get tools_url :: ChatCreate model_name tools initial_messages :: rest.
Proof.
  intros H Hcat Hn.
  destruct H as [e He | t c e Ht | t c m Ht | t c m done call rest e Ht | t Ht];
    cbn [trace log state_after boot].
  - destruct (fetch_outcome w) as [[t' [_ Hf]] | [e' [_ Hc]]]; congruence.
  - assert (t = tools) by congruence. subst t.
    destruct c as [| c]; [eexists; reflexivity |].
    destruct (trace_after_second tools c) as [tl ->]. eexists. reflexivity.
  - assert (t = tools) by congruence. subst t.
    destruct c as [| c]; [eexists; reflexivity |].
    destruct (trace_after_second tools c) as [tl ->]. eexists. reflexivity.
  - assert (t = tools) by congruence. subst t.
    destruct c as [| c]; [eexists; reflexivity |].
    destruct (trace_after_second tools c) as [tl ->]. eexists. reflexivity.
  - assert (t = tools) by congruence. subst t.
    destruct n as [| n]; [lia |]. apply trace_after_second.
Qed.

Lemma length_transcript_after c :
  advances w c -> length (transcript_after w c) = 2 + c + posts_before w c.
Proof.
  induction c as [| c IH]; intros Hadv; [reflexivity |].
  pose proof Hadv as [Hask _]. destruct (Hask c) as [m [Hm _]]; [lia |].
  simpl. rewrite Hm, length_app, IH by now apply advances_prev.
  simpl. rewrite length_tool_messages by apply length_results_from. lia.
Qed.

Lemma size_outcome n r s :
  run_outcome w n r s ->
  forall exit, r = Return exit ->
  length (messages s) = 2 + chat_calls (trace s) + post_calls (trace s).
Proof.
  intros H exit Hr.
  destruct H as [e He | t c e Ht Hc Hadv | t c m Ht Hc Hadv
                 | t c m done call rest e Ht Hc Hadv | t Ht Hadv];
    cbn [trace messages log state_after boot]; try discriminate Hr.
  - rewrite chat_calls_app, post_calls_app, chat_calls_trace_after,
      post_calls_trace_after, length_app, length_transcript_after by assumption.
    change (chat_calls [ChatCreate ?a ?b ?x]) with 1.
    change (post_calls [ChatCreate ?a ?b ?x]) with 0. simpl. lia.
  - rewrite chat_calls_trace_after, post_calls_trace_after,
      length_transcript_after by assumption. lia.
Qed.

Lemma posts_outcome n r s :
  run_outcome w n r s ->
  exists sent later,
    all_requests w (chat_calls (trace s)) = sent ++ later /\
    (forall exit, r = Return exit -> later = []) /\
    filter is_post (trace s) = map post_event sent.
Proof.
  intros H.
  destruct H as [e He | t c e Ht Hc Hadv Hf | t c m Ht Hc Hadv Hm Hp
                 | t c m done call rest e Ht Hc Hadv Hm Hp Hcalls | t Ht Hadv];
    cbn [trace log state_after boot].
  - exists [], []. repeat split.
  - exists (all_requests w c), (requested w c).
    rewrite chat_calls_app, chat_calls_trace_after.
    change (chat_calls [ChatCreate ?a ?b ?x]) with 1.
    rewrite Nat.add_1_r, all_requests_S. split; [reflexivity |].
    split; [discriminate |].
    rewrite filter_app, posts_trace_after. simpl. now rewrite app_nil_r.
  - exists (all_requests w c), (requested w c).
    rewrite chat_calls_app, chat_calls_trace_after.
    change (chat_calls [ChatCreate ?a ?b ?x]) with 1.
    rewrite Nat.add_1_r, all_requests_S. split; [reflexivity |]. split.
    + intros _ _. unfold requested. rewrite Hm. now apply plain_reply_requests.
    + rewrite filter_app, posts_trace_after. simpl. now rewrite app_nil_r.
  - exists (all_requests w c ++ done ++ [call]), rest.
    rewrite chat_calls_app, chat_calls_trace_after.
    change (chat_calls (ChatCreate ?a ?b ?x :: ?l)) with (S (chat_calls l)).
    rewrite chat_calls_posts, Nat.add_1_r, all_requests_S. split; [| split].
    + unfold requested. rewrite Hm, Hcalls. now rewrite <- !app_assoc.
    + discriminate.
    + rewrite filter_app, posts_trace_after. simpl.
      now rewrite filter_posts, !map_app.
  - exists (all_requests w n), []. rewrite chat_calls_trace_after, app_nil_r.
    split; [reflexivity |]. split; [reflexivity | apply posts_trace_after].
Qed.

End WholeRun.

(** C9. Each step of the inner loop sends exactly one request: a POST to the
    tool-call URL whose body has two entries, [name] and [arguments], holding
    the two strings of the request being executed, unchanged; this does not
    depend on how the invocation ends.  Over a run, the POSTs are, in order
    and one each, those of an initial segment of the requests carried by the
    replies to the chat calls made, taken reply by reply: the j-th POST
    carries the name and arguments of the j-th request; when the run ends
    normally every such request was sent. *)
Theorem payload_is_forwarded w n :
  (forall call s,
      trace (snd (tool_step w call s)) =
      trace s
      ++ [Post "http://localhost:3000/api/tools/call"
            (JObj [("name", JStr (fn_name (call_function call)));
                   ("arguments", JStr (fn_arguments (call_function call)))])]) /\
  (exists sent later,
      all_requests w (chat_calls (trace (snd (run w n boot)))) = sent ++ later /\
      (forall exit, fst (run w n boot) = Return exit -> later = []) /\
      filter is_post (trace (snd (run w n boot))) =
      map (fun call =>
             Post "http://localhost:3000/api/tools/call"
               (JObj [("name", JStr (fn_name (call_function call)));
                      ("arguments", JStr (fn_arguments (call_function call)))]))
          sent).
Proof.
  split.
  - intros call s.
    destruct (tool_outcome w (post_calls (trace s))) as [[v [Hv _]] | [e [He _]]].
    + now rewrite (tool_step_result _ call s Hv).
    + now rewrite (tool_step_failure _ call s He).
  - apply (posts_outcome (run_cases w n)).
Qed.

Lemma payload_is_forwarded_witness :
  exists sent later,
    all_requests unknown_tool
      (chat_calls (trace (snd (script unknown_tool boot)))) = sent ++ later /\
    (forall exit, fst (script unknown_tool boot) = Return exit -> later = []) /\
    filter is_post (trace (snd (script unknown_tool boot))) =
    map (fun call =>
           Post "http://localhost:3000/api/tools/call"
             (JObj [("name", JStr (fn_name (call_function call)));
                    ("arguments", JStr (fn_arguments (call_function call)))]))
        sent.
Proof. apply (proj2 (payload_is_forwarded unknown_tool 10)). Defined.

(** X6. Over a whole run, requests and results stay paired by position.
    Take the requests carried by the replies to the chat calls made, reply
    by reply and in the order emitted.  The POSTs sent are, in order, those
    of an initial segment of them.  The dicts of the transcript are the
    opening pair followed by one [tool] message for each request already
    answered, in the same order, the j-th holding the id of the j-th request
    and the [result] entry returned by the j-th invocation.  At most one
    request was sent without getting a [tool] message, and then its
    invocation returned no result; when the run ends normally every request
    was sent and answered. *)
Theorem requests_answered_in_order w n tools :
  catalog w = Some tools ->
  exists done pending later tool_msgs,
    all_requests w (chat_calls (trace (snd (run w n boot)))) =
      done ++ pending ++ later /\
    length pending <= 1 /\
    (forall exit, fst (run w n boot) = Return exit -> pending = [] /\ later = []) /\
    (pending <> [] -> tool_result w (length done) = None) /\
    filter is_post (trace (snd (run w n boot))) =
      map (fun call =>
             Post "http://localhost:3000/api/tools/call"
               (JObj [("name", JStr (fn_name (call_function call)));
                      ("arguments", JStr (fn_arguments (call_function call)))]))
          (done ++ pending) /\
    filter is_dict (messages (snd (run w n boot))) = opening ++ tool_msgs /\
    results_for w 0 done tool_msgs.
Proof. intros Hcat. apply (requests_outcome (run_cases w n) Hcat). Qed.

Lemma requests_answered_in_order_witness :
  exists done pending later tool_msgs,
    all_requests unknown_tool
      (chat_calls (trace (snd (script unknown_tool boot)))) =
      done ++ pending ++ later /\
    length pending <= 1 /\
    (forall exit,
        fst (script unknown_tool boot) = Return exit -> pending = [] /\ later = []) /\
    (pending <> [] -> tool_result unknown_tool (length done) = None) /\
    filter is_post (trace (snd (script unknown_tool boot))) =
      map (fun call =>
             Post "http://localhost:3000/api/tools/call"
               (JObj [("name", JStr (fn_name (call_function call)));
                      ("arguments", JStr (fn_arguments (call_function call)))]))
          (done ++ pending) /\
    filter is_dict (messages (snd (script unknown_tool boot))) = opening ++ tool_msgs /\
    results_for unknown_tool 0 done tool_msgs.
Proof.
  apply (@requests_answered_in_order unknown_tool 10 sample_tools). reflexivity.
Defined.

(** X7. Every chat call of a run names the model [qwen2.5:7b]; and once the
    catalog is fetched and the bound is positive, the first chat call is the
    second request of the run and is shown exactly the system message and
    the user message. *)
Theorem first_chat_call_sees_initial_pair w n :
  (forall model tools msgs,
      In (ChatCreate model tools msgs) (trace (snd (run w n boot))) ->
      model = "qwen2.5:7b") /\
  (forall tools,
      catalog w = Some tools -> 0 < n ->
      exists rest,
        trace (snd (run w n boot)) =
        Get tools_url
        :: ChatCreate "qwen2.5:7b" tools [system_message; user_message] :: rest).
Proof.
  split.
  - intros model tools msgs Hin.
    pose proof (run_sound w n) as H. rewrite Forall_forall in H.
    apply H in Hin. apply Hin.
  - intros tools Hcat Hn. now apply (first_chat_outcome (run_cases w n)).
Qed.

Lemma first_chat_call_sees_initial_pair_witness :
  exists rest,
    trace (snd (script no_choices boot)) =
    Get tools_url
    :: ChatCreate "qwen2.5:7b" sample_tools [system_message; user_message] :: rest.
Proof.
  apply (proj2 (first_chat_call_sees_initial_pair no_choices 10) sample_tools).
  - reflexivity.
  - lia.
Defined.

(** X8. A run that ends normally, through [break] or with the range used
    up, leaves a transcript with one message for every request it made
    besides the catalog fetch: its length is two, for the opening pair, plus
    the number of chat calls plus the number of tool invocations. *)
Theorem transcript_counts_answers w n exit :
  fst (run w n boot) = Return exit ->
  length (messages (snd (run w n boot))) =
  2 + chat_calls (trace (snd (run w n boot)))
    + post_calls (trace (snd (run w n boot))).
Proof. apply (size_outcome (run_cases w n)). Qed.

Lemma transcript_counts_answers_witness :
  length (messages (snd (script scenario boot))) = 2 + 2 + 1.
Proof. apply (@transcript_counts_answers scenario 10 Broke). reflexivity. Defined.
